(** * Sandbox wrapper of ralph-tui (src/sandbox/wrapper.ts)

    A shallow embedding of [SandboxWrapper] and of the parts of the
    JavaScript runtime it calls ([String.prototype.trim], [Set], the POSIX
    flavour of [node:path], [existsSync], [process.cwd]), followed by the
    properties of the wrapped command line. *)

From Stdlib Require Import NArith ZArith Strings.Ascii Strings.String.
From stdpp Require Import base decidable option numbers list strings.

Local Open Scope N_scope.

(** ** JavaScript strings

    A JavaScript string is a sequence of 16-bit code units.  Equality of
    strings ([===], and the SameValueZero comparison used by [Set]) is
    equality of these sequences. *)

Abbreviation jsstring := (list N).

(** The code units of an ASCII literal. *)
Definition js (s : string) : jsstring :=
  (λ a, N_of_ascii a) <$> list_ascii_of_string s.

Module JS.

Definition CHAR_DOT : N := 46.
Definition CHAR_FORWARD_SLASH : N := 47.

(** WhiteSpace and LineTerminator code units, the ones that
    [String.prototype.trim] strips. *)
Definition isWhiteSpace (c : N) : bool :=
  (c =? 0x09) || (c =? 0x0A) || (c =? 0x0B) || (c =? 0x0C) || (c =? 0x0D)
  || (c =? 0x20) || (c =? 0xA0) || (c =? 0x1680)
  || ((0x2000 <=? c) && (c <=? 0x200A))
  || (c =? 0x2028) || (c =? 0x2029) || (c =? 0x202F) || (c =? 0x205F)
  || (c =? 0x3000) || (c =? 0xFEFF).

Fixpoint trimStart (s : jsstring) : jsstring :=
  match s with
  | [] => []
  | c :: s' => if isWhiteSpace c then trimStart s' else s
  end.

Definition trimEnd (s : jsstring) : jsstring :=
  reverse (trimStart (reverse s)).

Definition trim (s : jsstring) : jsstring := trimEnd (trimStart s).

(** ** [Set<string>]: insertion-ordered, without duplicates *)

Definition set_add (s : list jsstring) (x : jsstring) : list jsstring :=
  if decide (x ∈ s) then s else s ++ [x].

(** [new Set(iterable)] *)
Definition new_Set (l : list jsstring) : list jsstring :=
  foldl set_add [] l.

(** [set.delete(x)] *)
Definition set_delete (s : list jsstring) (x : jsstring) : list jsstring :=
  filter (λ y, y ≠ x) s.

End JS.

(** ** The host: what the wrapper reads from its environment *)

Record Host := {
  (** [existsSync(path)] of [node:fs]; it never throws. *)
  existsSync : jsstring → bool;
  (** [process.cwd()], the ambient working directory of the process (the
      call is taken to succeed: the process has a working directory). *)
  process_cwd : jsstring;
}.

(** ** [node:path], POSIX flavour

    [isAbsolute], [resolve] and the [normalizeString] behind it, after
    lib/path.js of Node, statement by statement. *)

Module Path.
Import JS.

Definition isPosixPathSeparator (code : N) : bool :=
  code =? CHAR_FORWARD_SLASH.

Definition isAbsolute (path : jsstring) : bool :=
  match path with
  | [] => false
  | c :: _ => c =? CHAR_FORWARD_SLASH
  end.

(** [str.lastIndexOf(sep)], [-1] when absent. *)
Fixpoint lastIndexOf_from (i : Z) (s : jsstring) (sep : N) (found : Z) : Z :=
  match s with
  | [] => found
  | c :: s' =>
      lastIndexOf_from (i + 1)%Z s' sep (if c =? sep then i else found)
  end.

Definition lastIndexOf (s : jsstring) (sep : N) : Z :=
  lastIndexOf_from 0%Z s sep (-1)%Z.

(** [str.slice(from, to)] for [0 <= from <= to]. *)
Definition slice (s : jsstring) (from to : Z) : jsstring :=
  take (Z.to_nat (to - from)) (drop (Z.to_nat from) s).

Definition charCodeAt (s : jsstring) (i : Z) : N :=
  default 0 (s !! Z.to_nat i).

Definition len (s : jsstring) : Z := Z.of_nat (length s).

(** The loop variables of [normalizeString]. *)
Record nstate := {
  res : jsstring;
  lastSegmentLength : Z;
  lastSlash : Z;
  dots : Z;
  code : N;
}.

(** One iteration of the loop of [normalizeString], at index [i]. *)
Definition normalizeStep (path : jsstring) (allowAboveRoot : bool)
    (st : nstate) (i : Z) : nstate :=
  let sep := [CHAR_FORWARD_SLASH] in
  if negb (i <? len path)%Z && isPosixPathSeparator (code st) then st (* break *)
  else
    let code' := if (i <? len path)%Z then charCodeAt path i
                 else CHAR_FORWARD_SLASH in
    if isPosixPathSeparator code' then
      if (lastSlash st =? i - 1)%Z || (dots st =? 1)%Z then
        {| res := res st; lastSegmentLength := lastSegmentLength st;
           lastSlash := i; dots := 0; code := code' |}
      else if (dots st =? 2)%Z then
        let r := res st in
        let popped : option nstate :=
          if (len r <? 2)%Z || negb (lastSegmentLength st =? 2)%Z
             || negb (charCodeAt r (len r - 1) =? CHAR_DOT)
             || negb (charCodeAt r (len r - 2) =? CHAR_DOT)
          then
            if (2 <? len r)%Z then
              let lastSlashIndex := lastIndexOf r CHAR_FORWARD_SLASH in
              if (lastSlashIndex =? -1)%Z then
                Some {| res := []; lastSegmentLength := 0;
                        lastSlash := i; dots := 0; code := code' |}
              else
                let r' := slice r 0 lastSlashIndex in
                Some {| res := r';
                        lastSegmentLength :=
                          (len r' - 1 - lastIndexOf r' CHAR_FORWARD_SLASH)%Z;
                        lastSlash := i; dots := 0; code := code' |}
            else if negb (len r =? 0)%Z then
              Some {| res := []; lastSegmentLength := 0;
                      lastSlash := i; dots := 0; code := code' |}
            else None
          else None in
        match popped with
        | Some st' => st' (* continue *)
        | None =>
            if allowAboveRoot then
              {| res := r ++ (if (0 <? len r)%Z then sep ++ js ".." else js "..");
                 lastSegmentLength := 2;
                 lastSlash := i; dots := 0; code := code' |}
            else
              {| res := r; lastSegmentLength := lastSegmentLength st;
                 lastSlash := i; dots := 0; code := code' |}
        end
      else
        let seg := slice path (lastSlash st + 1) i in
        {| res := if (0 <? len (res st))%Z then res st ++ sep ++ seg else seg;
           lastSegmentLength := (i - lastSlash st - 1)%Z;
           lastSlash := i; dots := 0; code := code' |}
    else if (code' =? CHAR_DOT) && negb (dots st =? -1)%Z then
      {| res := res st; lastSegmentLength := lastSegmentLength st;
         lastSlash := lastSlash st; dots := (dots st + 1)%Z; code := code' |}
    else
      {| res := res st; lastSegmentLength := lastSegmentLength st;
         lastSlash := lastSlash st; dots := (-1)%Z; code := code' |}.

(** [normalizeString(path, allowAboveRoot, '/', isPosixPathSeparator)]:
    resolves [.] and [..] segments and removes empty ones. *)
Definition normalizeString (path : jsstring) (allowAboveRoot : bool) : jsstring :=
  res (foldl (normalizeStep path allowAboveRoot)
         {| res := []; lastSegmentLength := 0; lastSlash := (-1)%Z;
            dots := 0; code := 0 |}
         (seqZ 0 (len path + 1))).

(** The right-to-left loop of [resolve]: [rargs] are the arguments not yet
    visited, last one first; once they are used up the ambient working
    directory is taken.  Returns [resolvedPath] and [resolvedAbsolute]. *)
Fixpoint resolveLoop (cwd : jsstring) (rargs : list jsstring)
    (resolvedPath : jsstring) : jsstring * bool :=
  match rargs with
  | [] =>
      match cwd with
      | [] => (resolvedPath, false)
      | _ => (cwd ++ [CHAR_FORWARD_SLASH] ++ resolvedPath, isAbsolute cwd)
      end
  | path :: rargs' =>
      match path with
      | [] => resolveLoop cwd rargs' resolvedPath
      | _ =>
          let resolvedPath' := path ++ [CHAR_FORWARD_SLASH] ++ resolvedPath in
          if isAbsolute path then (resolvedPath', true)
          else resolveLoop cwd rargs' resolvedPath'
      end
  end.

(** [resolve(...args)] *)
Definition resolve (h : Host) (args : list jsstring) : jsstring :=
  let '(resolvedPath, resolvedAbsolute) :=
    resolveLoop (process_cwd h) (reverse args) [] in
  let resolvedPath := normalizeString resolvedPath (negb resolvedAbsolute) in
  if resolvedAbsolute then [CHAR_FORWARD_SLASH] ++ resolvedPath
  else if (0 <? len resolvedPath)%Z then resolvedPath else js ".".

End Path.

(** ** Data model of the wrapper *)

(** Modelled from the spec: the declaration of [SandboxConfig] (imported by
    the wrapper from ./types.js, which is not among the sources).  Every
    option may be absent; the wrapper supplies the defaults itself ([??],
    [=== false]).  [mode] is kept as the string the configuration holds, so
    that values outside the known backends are covered. *)
Record SandboxConfig := {
  enabled : option bool;
  mode : option jsstring;
  network : option bool;
  allowPaths : option (list jsstring);
  readOnlyPaths : option (list jsstring);
}.

(** Modelled from the spec: the declaration of [AgentSandboxRequirements]
    (imported from ../plugins/agents/types.js, not among the sources): three
    required, possibly empty, path lists. *)
Record AgentSandboxRequirements := {
  authPaths : list jsstring;
  binaryPaths : list jsstring;
  runtimePaths : list jsstring;
}.

Record WrappedCommand := {
  command : jsstring;
  args : list jsstring;
}.

Record SandboxWrapOptions := {
  cwd : option jsstring;
}.

(** The fields of a [SandboxWrapper] instance, set by its constructor. *)
Record SandboxWrapper := {
  config : SandboxConfig;
  requirements : AgentSandboxRequirements;
}.

Definition SYSTEM_DIRS : list jsstring :=
  js <$> ["/usr"; "/bin"; "/lib"; "/lib64"; "/sbin"; "/etc"]%string.

(** [arr.push(...items)] on the array under construction. *)
Definition push (arr items : list jsstring) : list jsstring := arr ++ items.

(** ** The methods of [SandboxWrapper] *)

Section Wrapper.
Context (h : Host) (this : SandboxWrapper).

Definition getRequirementPaths : list jsstring :=
  authPaths (requirements this)
  ++ binaryPaths (requirements this)
  ++ runtimePaths (requirements this).

Definition normalizePaths (paths : list jsstring) (cwd : jsstring)
    : list jsstring :=
  let resolved :=
    (λ path, if Path.isAbsolute path then path else Path.resolve h [cwd; path])
      <$> filter (λ path, (0 < length (JS.trim path))%nat) paths in
  JS.new_Set resolved.

(** [workDir], as computed at the head of [wrapWithBwrap]. *)
Definition workDirOf (options : SandboxWrapOptions) : jsstring :=
  let cwd := default (process_cwd h) (cwd options) in
  Path.resolve h [cwd].

(** The local set [readWritePaths] of [wrapWithBwrap]. *)
Definition readWriteSet (workDir : jsstring) : list jsstring :=
  JS.new_Set
    (workDir :: normalizePaths (default [] (allowPaths (config this))) workDir).

(** The local set [readOnlyPaths] of [wrapWithBwrap] as first built, the
    candidates. *)
Definition readOnlyCandidates (workDir : jsstring) : list jsstring :=
  JS.new_Set
    (normalizePaths (default [] (readOnlyPaths (config this))) workDir
     ++ normalizePaths getRequirementPaths workDir).

(** The local set [readOnlyPaths] after the loop that deletes from it
    every member of [readWritePaths]. *)
Definition readOnlySet (workDir : jsstring) : list jsstring :=
  foldl JS.set_delete (readOnlyCandidates workDir) (readWriteSet workDir).

Definition wrapWithBwrap (command : jsstring) (args : list jsstring)
    (options : SandboxWrapOptions) : WrappedCommand :=
  let workDir := workDirOf options in
  let bwrapArgs :=
    js <$> ["--die-with-parent"; "--dev"; "/dev"; "--proc"; "/proc"]%string in
  let bwrapArgs :=
    if decide (network (config this) = Some false)
    then push bwrapArgs [js "--unshare-net"]
    else bwrapArgs in
  let bwrapArgs :=
    foldl (λ acc dir,
             if existsSync h dir then push acc [js "--ro-bind"; dir; dir]
             else acc)
          bwrapArgs SYSTEM_DIRS in
  let readWritePaths := readWriteSet workDir in
  let readOnlyPaths := readOnlySet workDir in
  let bwrapArgs :=
    foldl (λ acc path, push acc [js "--bind"; path; path])
          bwrapArgs readWritePaths in
  let bwrapArgs :=
    foldl (λ acc path, push acc [js "--ro-bind"; path; path])
          bwrapArgs readOnlyPaths in
  let bwrapArgs :=
    push bwrapArgs ([js "--chdir"; workDir; js "--"; command] ++ args) in
  {| command := js "bwrap"; args := bwrapArgs |}.

Definition wrapCommand (command : jsstring) (args : list jsstring)
    (options : SandboxWrapOptions) : WrappedCommand :=
  if decide (enabled (config this) = Some false
             ∨ mode (config this) = Some (js "off"))
  then {| command := command; args := args |}
  else
    let mode := default (js "auto") (mode (config this)) in
    if decide (mode ≠ js "auto" ∧ mode ≠ js "bwrap")
    then {| command := command; args := args |}
    else wrapWithBwrap command args options.

End Wrapper.

(** ** Arrays as heap objects

    [args] reaches the wrapper as a reference to a JavaScript array that the
    caller keeps.  To follow what the wrapper writes, this second embedding
    of the two public methods stores arrays in a heap, addressed by
    reference.  Strings are immutable values and stay as they are; so do the
    sets and path lists local to one call, which no caller can reach. *)

Abbreviation ref := nat.
Abbreviation heap := (list (list jsstring)).

(** [[...items]]: a new array. *)
Definition alloc (items : list jsstring) (hp : heap) : ref * heap :=
  (length hp, hp ++ [items]).

(** [arr.push(...items)] through the reference [arr]. *)
Definition pushAt (arr : ref) (items : list jsstring) (hp : heap) : heap :=
  alter (λ a, push a items) arr hp.

(** [...arr]: the elements of the array behind [arr]. *)
Definition spread (arr : ref) (hp : heap) : list jsstring :=
  default [] (hp !! arr).

Record WrappedCommandRef := {
  commandRef : jsstring;
  argsRef : ref;
}.

Section WrapperOnHeap.
Context (h : Host) (this : SandboxWrapper).

Definition wrapWithBwrapRef (command : jsstring) (args : ref)
    (options : SandboxWrapOptions) (hp : heap) : WrappedCommandRef * heap :=
  let workDir := workDirOf h options in
  let '(bwrapArgs, hp) :=
    alloc (js <$> ["--die-with-parent"; "--dev"; "/dev"; "--proc"; "/proc"]%string)
          hp in
  let hp :=
    if decide (network (config this) = Some false)
    then pushAt bwrapArgs [js "--unshare-net"] hp
    else hp in
  let hp :=
    foldl (λ hp dir,
             if existsSync h dir then pushAt bwrapArgs [js "--ro-bind"; dir; dir] hp
             else hp)
          hp SYSTEM_DIRS in
  let readWritePaths := readWriteSet h this workDir in
  let readOnlyPaths := readOnlySet h this workDir in
  let hp :=
    foldl (λ hp path, pushAt bwrapArgs [js "--bind"; path; path] hp)
          hp readWritePaths in
  let hp :=
    foldl (λ hp path, pushAt bwrapArgs [js "--ro-bind"; path; path] hp)
          hp readOnlyPaths in
  let hp :=
    pushAt bwrapArgs ([js "--chdir"; workDir; js "--"; command] ++ spread args hp)
           hp in
  ({| commandRef := js "bwrap"; argsRef := bwrapArgs |}, hp).

Definition wrapCommandRef (command : jsstring) (args : ref)
    (options : SandboxWrapOptions) (hp : heap) : WrappedCommandRef * heap :=
  if decide (enabled (config this) = Some false
             ∨ mode (config this) = Some (js "off"))
  then ({| commandRef := command; argsRef := args |}, hp)
  else
    let mode := default (js "auto") (mode (config this)) in
    if decide (mode ≠ js "auto" ∧ mode ≠ js "bwrap")
    then ({| commandRef := command; argsRef := args |}, hp)
    else wrapWithBwrapRef command args options hp.

End WrapperOnHeap.

(** ** Reading an argument vector the way the isolation backend does

    The backend consumes options, each with a fixed number of operands, up to
    the separator [--]; what follows is the command to run.  Only the options
    the wrapper emits are known to this reader. *)

Inductive directive :=
  | DieWithParent
  | Dev (dest : jsstring)
  | Proc (dest : jsstring)
  | UnshareNet
  | RoBind (src dest : jsstring)
  | Bind (src dest : jsstring)
  | Chdir (dir : jsstring).

#[global] Instance directive_eq_dec : EqDecision directive.
Proof. solve_decision. Defined.

Definition consDirective (d : directive)
    (r : option (list directive * list jsstring))
    : option (list directive * list jsstring) :=
  (λ '(ds, payload), (d :: ds, payload)) <$> r.

Fixpoint parseOptions (v : list jsstring)
    : option (list directive * list jsstring) :=
  match v with
  | [] => None
  | flag :: rest =>
      if decide (flag = js "--") then Some ([], rest)
      else if decide (flag = js "--die-with-parent") then
        consDirective DieWithParent (parseOptions rest)
      else if decide (flag = js "--unshare-net") then
        consDirective UnshareNet (parseOptions rest)
      else
        match rest with
        | a :: rest1 =>
            if decide (flag = js "--dev") then
              consDirective (Dev a) (parseOptions rest1)
            else if decide (flag = js "--proc") then
              consDirective (Proc a) (parseOptions rest1)
            else if decide (flag = js "--chdir") then
              consDirective (Chdir a) (parseOptions rest1)
            else
              match rest1 with
              | b :: rest2 =>
                  if decide (flag = js "--ro-bind") then
                    consDirective (RoBind a b) (parseOptions rest2)
                  else if decide (flag = js "--bind") then
                    consDirective (Bind a b) (parseOptions rest2)
                  else None
              | [] => None
              end
        | [] => None
        end
  end.

(** The sandbox directives of a wrapped command, and the command it runs. *)
Definition directivesOf (w : WrappedCommand) : list directive :=
  match parseOptions (args w) with
  | Some (ds, _) => ds
  | None => []
  end.

Definition payloadOf (w : WrappedCommand) : list jsstring :=
  match parseOptions (args w) with
  | Some (_, payload) => payload
  | None => []
  end.

(** ** The directives of a wrapped command, spelled out *)

(** The tokens of one directive. *)
Definition render (d : directive) : list jsstring :=
  match d with
  | DieWithParent => [js "--die-with-parent"]
  | Dev dest => [js "--dev"; dest]
  | Proc dest => [js "--proc"; dest]
  | UnshareNet => [js "--unshare-net"]
  | RoBind src dest => [js "--ro-bind"; src; dest]
  | Bind src dest => [js "--bind"; src; dest]
  | Chdir dir => [js "--chdir"; dir]
  end.

(** The directives [wrapWithBwrap] emits, in order: the seed, the network
    flag, the system directories found on the host, the writable binds, the
    read-only binds, the working-directory pin. *)
Definition sandboxPlan (h : Host) (this : SandboxWrapper)
    (options : SandboxWrapOptions) : list directive :=
  let workDir := workDirOf h options in
  [DieWithParent; Dev (js "/dev"); Proc (js "/proc")]
  ++ (if decide (network (config this) = Some false) then [UnshareNet] else [])
  ++ ((λ d, RoBind d d) <$> filter (λ d, existsSync h d = true) SYSTEM_DIRS)
  ++ ((λ p, Bind p p) <$> readWriteSet h this workDir)
  ++ ((λ p, RoBind p p) <$> readOnlySet h this workDir)
  ++ [Chdir workDir].

(** ** Concrete hosts and configurations used in the examples *)

Definition noRequirements : AgentSandboxRequirements :=
  {| authPaths := []; binaryPaths := []; runtimePaths := [] |}.

(** A host with [/usr], [/bin], [/lib] and [/etc] but without [/lib64] and
    [/sbin], running in [/home/u]. *)
Definition hostA : Host :=
  {| existsSync := λ p, bool_decide (p ∈ js <$> ["/usr"; "/bin"; "/lib"; "/etc"]%string);
     process_cwd := js "/home/u" |}.

(** The end-to-end example of the specification. *)
Definition exampleWrapper : SandboxWrapper :=
  {| config := {| enabled := None; mode := Some (js "auto");
                  network := Some false;
                  allowPaths := Some [js "./out"];
                  readOnlyPaths := Some [] |};
     requirements := {| authPaths := [js "/home/u/.creds"];
                        binaryPaths := []; runtimePaths := [] |} |}.

(** [{cwd: '/proj'}] *)
Definition projOptions : SandboxWrapOptions := {| cwd := Some (js "/proj") |}.

(** [/usr] is asked for both read-write and read-only, on a host that has
    it. *)
Definition usrWrapper : SandboxWrapper :=
  {| config := {| enabled := None; mode := None; network := None;
                  allowPaths := Some [js "/usr"];
                  readOnlyPaths := Some [js "/usr"] |};
     requirements := noRequirements |}.

(** The end-to-end wrapper with [/proj/out] and the working directory also
    listed read-only, and a requirement path that resolves to [/proj/out]. *)
Definition collidingWrapper : SandboxWrapper :=
  {| config := {| enabled := None; mode := Some (js "auto");
                  network := Some false;
                  allowPaths := Some [js "./out"];
                  readOnlyPaths := Some [js "/proj/out"; js "/proj"] |};
     requirements := {| authPaths := [js "out/../out"];
                        binaryPaths := []; runtimePaths := [] |} |}.

(** The wrapper with [enabled] and [mode] replaced. *)
Definition withGate (e : option bool) (m : option jsstring)
    (this : SandboxWrapper) : SandboxWrapper :=
  {| config := {| enabled := e; mode := m;
                  network := network (config this);
                  allowPaths := allowPaths (config this);
                  readOnlyPaths := readOnlyPaths (config this) |};
     requirements := requirements this |}.

(** [/lib64], absent from [hostA], listed as a read-only path. *)
Definition lib64Wrapper : SandboxWrapper :=
  {| config := {| enabled := None; mode := None; network := None;
                  allowPaths := None;
                  readOnlyPaths := Some [js "/lib64"] |};
     requirements := noRequirements |}.

(** The same host seen from another ambient working directory. *)
Definition withProcessCwd (pc : jsstring) (h : Host) : Host :=
  {| existsSync := existsSync h; process_cwd := pc |}.

(** A path list with an absolute entry given twice, relative entries and
    blank ones. *)
Definition mixedPaths : list jsstring :=
  js <$> ["/abs/x/"; "rel"; "   "; ""; "./rel"; "/abs/x/"; "../up"]%string.

(** The entries of a path list that [normalizePaths] does not filter out. *)
Definition nonBlank (paths : list jsstring) : list jsstring :=
  filter (λ p, (0 < length (JS.trim p))%nat) paths.




(** [/proj/out] read-write, and two other spellings of the same location
    read-only. *)
Definition spellingWrapper : SandboxWrapper :=
  {| config := {| enabled := None; mode := None; network := None;
                  allowPaths := Some [js "/proj/out"];
                  readOnlyPaths := Some [js "/proj/out/"; js "/proj/x/../out"] |};
     requirements := noRequirements |}.

(** Closes a decidable goal about concrete inputs by evaluation. *)
Ltac by_compute := refine (bool_decide_unpack _ _); vm_compute; exact I.

(** The array [resolved] of [normalizePaths], before the [Set] removes the
    duplicates: the non-blank entries, each made absolute. *)
Definition normalizedEntries (h : Host) (paths : list jsstring)
    (cwd : jsstring) : list jsstring :=
  (λ path, if Path.isAbsolute path then path else Path.resolve h [cwd; path])
    <$> nonBlank paths.

(** The end-to-end wrapper called without [options.cwd], and with an empty
    one. *)
Definition noOptions : SandboxWrapOptions := {| cwd := None |}.

Definition emptyCwdOptions : SandboxWrapOptions := {| cwd := Some [] |}.

(** A host that agrees with [hostA] on the six system directories and on the
    ambient directory, and has every other path. *)
Definition hostB : Host :=
  {| existsSync := λ p, bool_decide (p ∉ js <$> ["/lib64"; "/sbin"]%string);
     process_cwd := js "/home/u" |}.

(** ** [path.join] and [path.normalize], POSIX flavour, after lib/path.js *)

Module PosixPath.
Import JS Path.

Definition normalize (path : jsstring) : jsstring :=
  if (len path =? 0)%Z then js "."
  else
    let isAbsolute := charCodeAt path 0 =? CHAR_FORWARD_SLASH in
    let trailingSeparator :=
      charCodeAt path (len path - 1) =? CHAR_FORWARD_SLASH in
    let path := normalizeString path (negb isAbsolute) in
    if (len path =? 0)%Z then
      if isAbsolute then js "/"
      else if trailingSeparator then js "./" else js "."
    else
      let path := if trailingSeparator then path ++ js "/" else path in
      if isAbsolute then js "/" ++ path else path.

(** The loop of [join]: [joined] is [None] while it is [undefined]. *)
Definition joinStep (joined : option jsstring) (arg : jsstring)
    : option jsstring :=
  if (0 <? len arg)%Z then
    match joined with
    | None => Some arg
    | Some j => Some (j ++ js "/" ++ arg)
    end
  else joined.

Definition join (args : list jsstring) : jsstring :=
  match args with
  | [] => js "."
  | _ =>
      match foldl joinStep None args with
      | None => js "."
      | Some joined => normalize joined
      end
  end.

End PosixPath.

(** ** The create-prd command (lines 109-534 of the same source file)

    Its argument parser and its tracker menu.  The rest of the command
    awaits collaborators that are not among the sources (the PRD wizard, the
    agent registry, the terminal renderer) and is not embedded. *)

Module CreatePrd.

Section Parser.

(** JavaScript numbers are not modelled: [toNumber negative n] stands for
    the Number that [parseInt] returns for the sign and the mathematical
    integer it has read ([-0] for a negative zero, a rounded value above
    [2^53]). *)
Context {number : Type} (toNumber : bool → N → number).

Definition CHAR_PLUS : N := 43.
Definition CHAR_MINUS : N := 45.

Definition isDecimalDigit (c : N) : bool := (48 <=? c) && (c <=? 57).

Fixpoint leadingDigits (s : jsstring) : jsstring :=
  match s with
  | c :: s' => if isDecimalDigit c then c :: leadingDigits s' else []
  | [] => []
  end.

Definition mathInt (digits : jsstring) : N :=
  foldl (λ acc c, 10 * acc + (c - 48)) 0 digits.

(** [parseInt(string, 10)]; [None] is [NaN]. *)
Definition parseInt10 (string : jsstring) : option number :=
  let S := JS.trimStart string in
  let negative :=
    match S with c :: _ => c =? CHAR_MINUS | [] => false end in
  let S :=
    match S with
    | c :: S' => if (c =? CHAR_PLUS) || (c =? CHAR_MINUS) then S' else S
    | [] => S
    end in
  match leadingDigits S with
  | [] => None
  | Z => Some (toNumber negative (mathInt Z))
  end.

(** [CreatePrdArgs]: every property is optional.  A property assigned
    [undefined] reads like an absent one, and both are [None]. *)
Record CreatePrdArgs := {
  cwd : option jsstring;
  output : option jsstring;
  stories : option number;
  force : option bool;
  chat : option bool;
  agent : option jsstring;
  timeout : option number;
}.

Definition emptyArgs : CreatePrdArgs :=
  {| cwd := None; output := None; stories := None; force := None;
     chat := None; agent := None; timeout := None |}.

Definition set_cwd (v : option jsstring) (r : CreatePrdArgs) : CreatePrdArgs :=
  {| cwd := v; output := output r; stories := stories r; force := force r;
     chat := chat r; agent := agent r; timeout := timeout r |}.

Definition set_output (v : option jsstring) (r : CreatePrdArgs) : CreatePrdArgs :=
  {| cwd := cwd r; output := v; stories := stories r; force := force r;
     chat := chat r; agent := agent r; timeout := timeout r |}.

Definition set_stories (v : option number) (r : CreatePrdArgs) : CreatePrdArgs :=
  {| cwd := cwd r; output := output r; stories := v; force := force r;
     chat := chat r; agent := agent r; timeout := timeout r |}.

Definition set_force (v : option bool) (r : CreatePrdArgs) : CreatePrdArgs :=
  {| cwd := cwd r; output := output r; stories := stories r; force := v;
     chat := chat r; agent := agent r; timeout := timeout r |}.

Definition set_chat (v : option bool) (r : CreatePrdArgs) : CreatePrdArgs :=
  {| cwd := cwd r; output := output r; stories := stories r; force := force r;
     chat := v; agent := agent r; timeout := timeout r |}.

Definition set_agent (v : option jsstring) (r : CreatePrdArgs) : CreatePrdArgs :=
  {| cwd := cwd r; output := output r; stories := stories r; force := force r;
     chat := chat r; agent := v; timeout := timeout r |}.

Definition set_timeout (v : option number) (r : CreatePrdArgs) : CreatePrdArgs :=
  {| cwd := cwd r; output := output r; stories := stories r; force := force r;
     chat := chat r; agent := agent r; timeout := v |}.

(** [const count = parseInt(value ?? '', 10); if (!isNaN(count)) ...] *)
Definition set_stories_if_number (value : option jsstring) (r : CreatePrdArgs)
    : CreatePrdArgs :=
  match parseInt10 (default [] value) with
  | Some count => set_stories (Some count) r
  | None => r
  end.

Definition set_timeout_if_number (value : option jsstring) (r : CreatePrdArgs)
    : CreatePrdArgs :=
  match parseInt10 (default [] value) with
  | Some t => set_timeout (Some t) r
  | None => r
  end.

(** How a call ends: it returns [result], or it prints the help and calls
    [process.exit(0)]. *)
Inductive ParseOutcome :=
  | Returned (result : CreatePrdArgs)
  | HelpAndExit.

(** [arg === long || arg === short] *)
Definition isFlag (arg : jsstring) (long short : string) : bool :=
  bool_decide (arg = js long ∨ arg = js short).

(** The loop of [parseCreatePrdArgs]: [rest] is [args] from index [i] on, so
    [args[i]] is its head and [args[++i]] the element after it, [undefined]
    when there is none; the loop then goes on past that element. *)
Fixpoint parseFrom (rest : list jsstring) (result : CreatePrdArgs)
    : ParseOutcome :=
  match rest with
  | [] => Returned result
  | arg :: rest1 =>
      if isFlag arg "--cwd" "-C" then
        match rest1 with
        | value :: rest2 => parseFrom rest2 (set_cwd (Some value) result)
        | [] => Returned (set_cwd None result)
        end
      else if isFlag arg "--output" "-o" then
        match rest1 with
        | value :: rest2 => parseFrom rest2 (set_output (Some value) result)
        | [] => Returned (set_output None result)
        end
      else if isFlag arg "--stories" "-n" then
        match rest1 with
        | value :: rest2 =>
            parseFrom rest2 (set_stories_if_number (Some value) result)
        | [] => Returned (set_stories_if_number None result)
        end
      else if isFlag arg "--force" "-f" then
        parseFrom rest1 (set_force (Some true) result)
      else if isFlag arg "--chat" "--ai" then
        parseFrom rest1 (set_chat (Some true) result)
      else if isFlag arg "--agent" "-a" then
        match rest1 with
        | value :: rest2 => parseFrom rest2 (set_agent (Some value) result)
        | [] => Returned (set_agent None result)
        end
      else if isFlag arg "--timeout" "-t" then
        match rest1 with
        | value :: rest2 =>
            parseFrom rest2 (set_timeout_if_number (Some value) result)
        | [] => Returned (set_timeout_if_number None result)
        end
      else if isFlag arg "--help" "-h" then HelpAndExit
      else parseFrom rest1 result
  end.

Definition parseCreatePrdArgs (args : list jsstring) : ParseOutcome :=
  parseFrom args emptyArgs.

(** The flags that take the next argument as their value. *)
Definition takesValue (arg : jsstring) : bool :=
  isFlag arg "--cwd" "-C" || isFlag arg "--output" "-o"
  || isFlag arg "--stories" "-n" || isFlag arg "--agent" "-a"
  || isFlag arg "--timeout" "-t".

(** Whether the loop, run over [args], ends on a value-taking flag that has
    no value after it. *)
Fixpoint endsOnFlagWithoutValue (args : list jsstring) : bool :=
  match args with
  | [] => false
  | arg :: rest1 =>
      if takesValue arg then
        match rest1 with
        | _ :: rest2 => endsOnFlagWithoutValue rest2
        | [] => true
        end
      else if isFlag arg "--help" "-h" then false
      else endsOnFlagWithoutValue rest1
  end.

End Parser.

(** ** The tracker menu *)

Record TrackerOption := {
  key : jsstring;
  name : jsstring;
  description : jsstring;
  available : bool;
  skillPrompt : jsstring;
}.

#[global] Instance TrackerOption_eq_dec : EqDecision TrackerOption.
Proof. solve_decision. Defined.

Definition getAvailableTrackers (h : Host) (cwd : jsstring)
    : list TrackerOption :=
  let beadsDir := PosixPath.join [cwd; js ".beads"] in
  let hasBeads := existsSync h beadsDir in
  [ {| key := js "A";
       name := js "JSON (prd.json)";
       description := js "Simple JSON format, no external dependencies";
       available := true;
       skillPrompt :=
         js "Convert this PRD to prd.json format using the ralph-tui-create-json skill." |};
    {| key := js "B";
       name := js "Beads";
       description := js "Git-backed issue tracker with dependencies";
       available := hasBeads;
       skillPrompt :=
         js "Convert this PRD to beads using the ralph-tui-create-beads skill." |};
    {| key := js "C";
       name := js "Skip";
       description := js "I'll create tasks manually";
       available := true;
       skillPrompt := [] |} ].

(** What one run of [promptTrackerSelection] shows and gives. *)
Record Prompted := {
  logged : list jsstring;
  query : jsstring;
  resolved : option TrackerOption;
}.

Section Prompt.

(** [String.prototype.toUpperCase] follows the Unicode case tables and is
    taken as given. *)
Context (toUpperCase : jsstring → jsstring).

(** [promptTrackerSelection], as a function of the line the user types:
    the lines written with [console.log], the query of [rl.question], and
    the value the promise resolves with ([None] for [null]). *)
Definition promptTrackerSelection (h : Host) (cwd : jsstring)
    (answer : jsstring) : Prompted :=
  let trackers := getAvailableTrackers h cwd in
  let availableTrackers := filter (λ t, available t = true) trackers in
  let logged :=
    [ []; js "Would you like to create tasks for a tracker?"; [] ]
    ++ ((λ tracker,
           js "  " ++ key tracker ++ js ". " ++ name tracker ++ js " - "
           ++ description tracker) <$> availableTrackers)
    ++ [ [] ] in
  let normalized := toUpperCase (JS.trim answer) in
  let selected :=
    List.find (λ t, bool_decide (key t = normalized)) availableTrackers in
  {| logged := logged;
     query := js "Select option (A/B/C): ";
     resolved :=
       match selected with
       | None => None
       | Some selected =>
           if bool_decide (key selected = js "C") then None else Some selected
       end |}.

End Prompt.

End CreatePrd.

(** For the examples: an engine whose numbers are the integers themselves,
    as every engine's are for a magnitude below [2^53] (the sign of a zero
    apart), and an upper-casing of the ASCII letters. *)
Definition exactNumber (negative : bool) (n : N) : Z :=
  if negative then (- Z.of_N n)%Z else Z.of_N n.

Definition asciiUpperCase (s : jsstring) : jsstring :=
  (λ c, if (97 <=? c) && (c <=? 122) then c - 32 else c) <$> s.

(** A host whose working tree holds a [.beads] directory, and one without. *)
Definition beadsHost : Host :=
  {| existsSync := λ p, bool_decide (p = js "/proj/.beads");
     process_cwd := js "/proj" |}.

(** The cases of the [if]-chain of [parseCreatePrdArgs] on [arg], in its
    order: nine goals. *)
Ltac flag_cases arg :=
  destruct (CreatePrd.isFlag arg "--cwd" "-C") eqn:?; [|
  destruct (CreatePrd.isFlag arg "--output" "-o") eqn:?; [|
  destruct (CreatePrd.isFlag arg "--stories" "-n") eqn:?; [|
  destruct (CreatePrd.isFlag arg "--force" "-f") eqn:?; [|
  destruct (CreatePrd.isFlag arg "--chat" "--ai") eqn:?; [|
  destruct (CreatePrd.isFlag arg "--agent" "-a") eqn:?; [|
  destruct (CreatePrd.isFlag arg "--timeout" "-t") eqn:?; [|
  destruct (CreatePrd.isFlag arg "--help" "-h") eqn:?]]]]]]].

(** A flag that is met cannot be absent from the arguments. *)
Ltac flag_contra :=
  match goal with
  | H : CreatePrd.isFlag ?a ?l ?s = true,
    Hl : js ?l ∉ ?a :: _, Hs : js ?s ∉ ?a :: _ |- _ =>
      apply bool_decide_eq_true in H as [-> | ->];
      [destruct Hl|destruct Hs]; by left
  end.

(** A property of a record after one assignment of the loop. *)
Ltac frame_finish :=
  first
    [ reflexivity
    | unfold CreatePrd.set_stories_if_number, CreatePrd.set_timeout_if_number;
      destruct (CreatePrd.parseInt10 _ _); reflexivity
    | flag_contra ].

(** The proof that a property is left alone by the loop over arguments
    that hold neither spelling of its flag, by the induction principle
    [two_steps] (the loop advances by one argument or by two). *)
Ltac frame_proof two_steps :=
  let a := fresh "a" in let b := fresh "b" in let l := fresh "l" in
  let IH1 := fresh "IH1" in let IH2 := fresh "IH2" in
  let Hp := fresh "Hp" in let Hl := fresh "Hl" in let Hs := fresh "Hs" in
  match goal with
  | |- ∀ rest result r, _ =>
      intros rest result r; revert result;
      induction rest as [|a|a b l IH1 IH2] using two_steps;
      intros result Hp Hl Hs; cbn [CreatePrd.parseFrom] in Hp; revert Hp;
      [ intros [= <-]; reflexivity
      | flag_cases a; cbn [CreatePrd.parseFrom]; intros Hp;
        try discriminate Hp; injection Hp as <-; frame_finish
      | pose proof Hl as [_ [_ ?]%not_elem_of_cons]%not_elem_of_cons;
        pose proof Hs as [_ [_ ?]%not_elem_of_cons]%not_elem_of_cons;
        pose proof Hl as [_ ?]%not_elem_of_cons;
        pose proof Hs as [_ ?]%not_elem_of_cons;
        flag_cases a; intros Hp; try discriminate Hp;
        first [ apply IH1 in Hp; [|assumption..]
              | apply IH2 in Hp; [|assumption..] ];
        rewrite Hp; frame_finish ]
  end.

(** Argument lists for the examples. *)
Definition sampleArgs : list jsstring :=
  js <$> ["--force"; "extra"; "-n"; " 7 stories"; "--output"; "docs"]%string.

Definition cwdThenStories : list jsstring :=
  js <$> ["--cwd"; "/a"; "-n"; "5"]%string.

(** The three entries of [getAvailableTrackers], by name. *)
Definition jsonTracker : CreatePrd.TrackerOption :=
  {| CreatePrd.key := js "A";
     CreatePrd.name := js "JSON (prd.json)";
     CreatePrd.description := js "Simple JSON format, no external dependencies";
     CreatePrd.available := true;
     CreatePrd.skillPrompt :=
       js "Convert this PRD to prd.json format using the ralph-tui-create-json skill." |}.

Definition beadsTracker (hasBeads : bool) : CreatePrd.TrackerOption :=
  {| CreatePrd.key := js "B";
     CreatePrd.name := js "Beads";
     CreatePrd.description := js "Git-backed issue tracker with dependencies";
     CreatePrd.available := hasBeads;
     CreatePrd.skillPrompt :=
       js "Convert this PRD to beads using the ralph-tui-create-beads skill." |}.

Definition skipTracker : CreatePrd.TrackerOption :=
  {| CreatePrd.key := js "C";
     CreatePrd.name := js "Skip";
     CreatePrd.description := js "I'll create tasks manually";
     CreatePrd.available := true;
     CreatePrd.skillPrompt := [] |}.

(** * Properties *)

(** ** The model on concrete inputs *)

Example resolve_relative_entry :
  Path.resolve hostA [js "/proj"; js "./out"] = js "/proj/out".
Proof. by vm_compute. Qed.

Example resolve_dot_segments :
  Path.resolve hostA [js "/proj/"; js "../a//b/./c/.."] = js "/a/b".
Proof. by vm_compute. Qed.

Example resolve_ambient :
  Path.resolve hostA [js "x/../../y"] = js "/home/y"
  ∧ Path.resolve hostA [js ""] = js "/home/u"
  ∧ Path.resolve hostA [js "/../.."] = js "/".
Proof. by vm_compute. Qed.

Example trim_entry :
  JS.trim (js "  a b  ") = js "a b" ∧ JS.trim (js "   ") = [] ∧ JS.trim [0xA0; 0x2003; 0xFEFF] = [].
Proof. by vm_compute. Qed.

Example new_Set_keeps_first_occurrences :
  JS.new_Set (js <$> ["b"; "a"; "b"; "c"; "a"]%string) = js <$> ["b"; "a"; "c"]%string.
Proof. by vm_compute. Qed.

(** The end-to-end example of the specification, on a host without [/lib64]
    and [/sbin]. *)
Example end_to_end :
  wrapCommand hostA exampleWrapper (js "echo") [js "hi"] projOptions
  = {| command := js "bwrap";
       args := js <$> ["--die-with-parent"; "--dev"; "/dev"; "--proc"; "/proc";
                       "--unshare-net";
                       "--ro-bind"; "/usr"; "/usr"; "--ro-bind"; "/bin"; "/bin";
                       "--ro-bind"; "/lib"; "/lib"; "--ro-bind"; "/etc"; "/etc";
                       "--bind"; "/proj"; "/proj";
                       "--bind"; "/proj/out"; "/proj/out";
                       "--ro-bind"; "/home/u/.creds"; "/home/u/.creds";
                       "--chdir"; "/proj"; "--"; "echo"; "hi"]%string |}.
Proof. by vm_compute. Qed.

(** ** The [Set] operations *)

Section SetFacts.
Import JS.
Implicit Types (s k l acc : list jsstring) (x : jsstring).

Lemma foldl_set_add_elem acc l x :
  x ∈ foldl set_add acc l ↔ x ∈ acc ∨ x ∈ l.
Proof.
  revert acc. induction l as [|y l IH]; intros acc; simpl.
  - rewrite elem_of_nil. tauto.
  - rewrite IH, elem_of_cons. unfold set_add.
    destruct (decide (y ∈ acc)) as [Hy|Hy].
    + split; [tauto|]. intros [?|[->|?]]; tauto.
    + rewrite elem_of_app, list_elem_of_singleton. tauto.
Qed.

Lemma foldl_set_add_NoDup acc l : NoDup acc → NoDup (foldl set_add acc l).
Proof.
  revert acc. induction l as [|y l IH]; intros acc Hacc; simpl; [done|].
  apply IH. unfold set_add. destruct (decide (y ∈ acc)); [done|].
  apply NoDup_app. split_and!; [done| |apply NoDup_singleton].
  intros z Hz ->%list_elem_of_singleton. done.
Qed.

Lemma foldl_set_add_prefix acc l : acc `prefix_of` foldl set_add acc l.
Proof.
  revert acc. induction l as [|y l IH]; intros acc; simpl; [done|].
  etrans; [|apply IH]. unfold set_add.
  destruct (decide (y ∈ acc)); [done|]. by apply prefix_app_r.
Qed.

Lemma elem_of_new_Set l x : x ∈ new_Set l ↔ x ∈ l.
Proof.
  unfold new_Set. rewrite foldl_set_add_elem, elem_of_nil. tauto.
Qed.

Lemma NoDup_new_Set l : NoDup (new_Set l).
Proof. apply foldl_set_add_NoDup, NoDup_nil_2. Qed.

Lemma new_Set_cons x l : ∃ rest, new_Set (x :: l) = x :: rest.
Proof.
  unfold new_Set. simpl. unfold set_add at 2.
  destruct (decide (x ∈ [])) as [H|_]; [by apply elem_of_nil in H|].
  destruct (foldl_set_add_prefix ([] ++ [x]) l) as [rest ->]. by exists rest.
Qed.

Lemma elem_of_set_delete s x y : y ∈ set_delete s x ↔ y ∈ s ∧ y ≠ x.
Proof. unfold set_delete. rewrite list_elem_of_filter. tauto. Qed.

Lemma foldl_set_delete_elem s k x :
  x ∈ foldl set_delete s k ↔ x ∈ s ∧ x ∉ k.
Proof.
  revert s. induction k as [|y k IH]; intros s; simpl.
  - rewrite elem_of_nil. tauto.
  - rewrite IH, elem_of_set_delete, not_elem_of_cons. tauto.
Qed.

Lemma foldl_set_delete_NoDup s k : NoDup s → NoDup (foldl set_delete s k).
Proof.
  revert s. induction k as [|y k IH]; intros s Hs; simpl; [done|].
  apply IH. by apply NoDup_filter.
Qed.

End SetFacts.

(** ** The shape of the argument vector *)

Lemma parseOptions_render (ds : list directive) (payload : list jsstring) :
  parseOptions ((ds ≫= render) ++ js "--" :: payload) = Some (ds, payload).
Proof.
  induction ds as [|d ds IH]; [done|].
  destruct d; cbn [mbind list_bind render app]; cbn -[js]; rewrite IH; done.
Qed.

Lemma foldl_push_bind (f : jsstring → list jsstring) (l : list jsstring)
    (acc : list jsstring) :
  foldl (λ acc x, push acc (f x)) acc l = acc ++ (l ≫= f).
Proof.
  revert acc. induction l as [|x l IH]; intros acc; simpl.
  - by rewrite app_nil_r.
  - rewrite IH. unfold push. by rewrite <- app_assoc.
Qed.

Lemma foldl_push_filter (c : jsstring → bool) (f : jsstring → list jsstring)
    (l : list jsstring) (acc : list jsstring) :
  foldl (λ acc x, if c x then push acc (f x) else acc) acc l
  = acc ++ (filter (λ x, c x = true) l ≫= f).
Proof.
  revert acc. induction l as [|x l IH]; intros acc; simpl.
  - by rewrite app_nil_r.
  - rewrite IH, filter_cons. destruct (c x) eqn:Hc.
    + rewrite decide_True by done. unfold push. simpl. by rewrite <- app_assoc.
    + rewrite decide_False by done. done.
Qed.

Lemma bind_fmap_render (g : jsstring → directive) (l : list jsstring) :
  (g <$> l) ≫= render = l ≫= (λ x, render (g x)).
Proof.
  induction l as [|x l IH]; [done|].
  cbn [fmap list_fmap mbind list_bind]. f_equal. exact IH.
Qed.

Lemma wrapWithBwrap_args h this cmd argv options :
  args (wrapWithBwrap h this cmd argv options)
  = (sandboxPlan h this options ≫= render) ++ js "--" :: cmd :: argv.
Proof.
  unfold wrapWithBwrap, sandboxPlan. cbn [args].
  rewrite !foldl_push_bind, foldl_push_filter.
  rewrite !bind_app, !bind_fmap_render. unfold push.
  destruct (decide (network (config this) = Some false));
    cbn [render mbind list_bind fmap list_fmap app];
    rewrite <- ?app_assoc; reflexivity.
Qed.

Lemma directivesOf_wrapWithBwrap h this cmd argv options :
  directivesOf (wrapWithBwrap h this cmd argv options)
  = sandboxPlan h this options.
Proof.
  unfold directivesOf. by rewrite wrapWithBwrap_args, parseOptions_render.
Qed.

Lemma payloadOf_wrapWithBwrap h this cmd argv options :
  payloadOf (wrapWithBwrap h this cmd argv options) = cmd :: argv.
Proof.
  unfold payloadOf. by rewrite wrapWithBwrap_args, parseOptions_render.
Qed.

(** ** Blank entries: what [path.trim().length > 0] rejects *)

Section TrimFacts.
Import JS.
Implicit Types (s : jsstring).

Lemma trimStart_nil_iff s : trimStart s = [] ↔ forallb isWhiteSpace s = true.
Proof.
  induction s as [|c s IH]; simpl; [done|].
  destruct (isWhiteSpace c); simpl; [done|]. split; discriminate.
Qed.

Lemma trimStart_all_blank s :
  forallb isWhiteSpace (trimStart s) = true → trimStart s = [].
Proof.
  induction s as [|c s IH]; simpl; [done|].
  destruct (isWhiteSpace c) eqn:Hc; [done|]. simpl. by rewrite Hc.
Qed.

Lemma forallb_reverse (f : N → bool) s :
  forallb f (reverse s) = forallb f s.
Proof.
  induction s as [|c s IH]; [done|].
  rewrite reverse_cons, forallb_app, IH. simpl.
  rewrite andb_true_r. apply andb_comm.
Qed.

(** An entry is dropped exactly when all its code units are white space
    (the empty string included). *)
Lemma trim_blank_iff s :
  length (trim s) = 0%nat ↔ forallb isWhiteSpace s = true.
Proof.
  rewrite length_zero_iff_nil. unfold trim, trimEnd. split.
  - intros H. apply (f_equal reverse) in H. rewrite reverse_involutive in H.
    cbn in H. apply trimStart_nil_iff in H. rewrite forallb_reverse in H.
    by apply trimStart_nil_iff, trimStart_all_blank.
  - intros H. apply trimStart_nil_iff in H. by rewrite H.
Qed.

Lemma isAbsolute_not_blank s :
  Path.isAbsolute s = true → (0 < length (trim s))%nat.
Proof.
  intros Habs. destruct (decide (length (trim s) = 0%nat)) as [H0|]; [|lia].
  apply trim_blank_iff in H0. destruct s as [|c s]; [done|].
  simpl in *. apply N.eqb_eq in Habs as ->. done.
Qed.

End TrimFacts.

(** ** Facts about [resolve] *)

Section ResolveFacts.
Import JS Path.

(** With an absolute first argument the ambient working directory is never
    consulted. *)
Lemma resolve_absolute_base h h' (base : jsstring) (rest : list jsstring) :
  isAbsolute base = true →
  resolve h (base :: rest) = resolve h' (base :: rest).
Proof.
  intros Habs. unfold resolve. rewrite reverse_cons.
  assert (∀ cwd1 cwd2 acc,
    resolveLoop cwd1 (reverse rest ++ [base]) acc
    = resolveLoop cwd2 (reverse rest ++ [base]) acc) as Hloop.
  { intros cwd1 cwd2.
    induction (reverse rest) as [|p l IH]; intros acc; cbn [resolveLoop app].
    - destruct base as [|c base]; [done|]. by rewrite Habs.
    - destruct p as [|c p]; [apply IH|].
      destruct (isAbsolute (c :: p)); [done|apply IH]. }
  by rewrite (Hloop (process_cwd h) (process_cwd h')).
Qed.

Lemma resolveLoop_absolute cwd (base : jsstring) l acc :
  isAbsolute base = true → (resolveLoop cwd (l ++ [base]) acc).2 = true.
Proof.
  intros Habs. revert acc.
  induction l as [|p l IH]; intros acc; cbn [resolveLoop app].
  - destruct base as [|c base]; [done|]. by rewrite Habs.
  - destruct p as [|c p]; [apply IH|].
    destruct (isAbsolute (c :: p)); [done|apply IH].
Qed.

(** Resolving from an absolute base gives an absolute path. *)
Lemma resolve_isAbsolute h (base : jsstring) (rest : list jsstring) :
  isAbsolute base = true → isAbsolute (resolve h (base :: rest)) = true.
Proof.
  intros Habs. unfold resolve. rewrite reverse_cons.
  pose proof (resolveLoop_absolute (process_cwd h) base (reverse rest) [] Habs) as H.
  destruct (resolveLoop _ _ _) as [r b]. simpl in H. subst b. done.
Qed.

Lemma resolveLoop_absolute_cwd cwd l acc :
  isAbsolute cwd = true → (resolveLoop cwd l acc).2 = true.
Proof.
  intros Habs. revert acc.
  induction l as [|p l IH]; intros acc; cbn [resolveLoop].
  - destruct cwd as [|c cwd]; [done|]. done.
  - destruct p as [|c p]; [apply IH|].
    destruct (isAbsolute (c :: p)); [done|apply IH].
Qed.

(** On a host whose ambient working directory is absolute, [resolve] always
    gives an absolute path. *)
Lemma resolve_isAbsolute_cwd h (l : list jsstring) :
  isAbsolute (process_cwd h) = true → isAbsolute (resolve h l) = true.
Proof.
  intros Habs. unfold resolve.
  pose proof (resolveLoop_absolute_cwd (process_cwd h) (reverse l) [] Habs) as H.
  destruct (resolveLoop _ _ _) as [r b]. simpl in H. subst b. done.
Qed.

End ResolveFacts.

(** ** Facts about [normalizePaths] and the resolved sets *)

Section NormalizeFacts.
Import JS.
Context (h : Host).
Implicit Types (paths : list jsstring) (cwd x p : jsstring).

Lemma elem_of_normalizePaths paths cwd x :
  x ∈ normalizePaths h paths cwd ↔
  ∃ p, p ∈ paths ∧ (0 < length (trim p))%nat
       ∧ x = if Path.isAbsolute p then p else Path.resolve h [cwd; p].
Proof.
  unfold normalizePaths. rewrite elem_of_new_Set, list_elem_of_fmap.
  split.
  - intros (p & -> & [Hp ?]%list_elem_of_filter). eauto.
  - intros (p & ? & ? & ->). exists p. by rewrite list_elem_of_filter.
Qed.

Lemma elem_of_normalizePaths_app paths1 paths2 cwd x :
  x ∈ normalizePaths h (paths1 ++ paths2) cwd ↔
  x ∈ normalizePaths h paths1 cwd ∨ x ∈ normalizePaths h paths2 cwd.
Proof.
  rewrite !elem_of_normalizePaths. split.
  - intros (p & [Hp|Hp]%elem_of_app & Hb & ->); [left|right]; by exists p.
  - intros [(p & Hp & Hb & ->)|(p & Hp & Hb & ->)]; exists p;
      rewrite elem_of_app; tauto.
Qed.

Lemma NoDup_normalizePaths paths cwd : NoDup (normalizePaths h paths cwd).
Proof. apply NoDup_new_Set. Qed.

Lemma normalizePaths_drop_blank paths cwd :
  normalizePaths h (filter (λ p, (0 < length (trim p))%nat) paths) cwd
  = normalizePaths h paths cwd.
Proof.
  unfold normalizePaths. do 2 f_equal.
  induction paths as [|p paths IH]; [done|].
  rewrite !filter_cons. destruct (decide _) as [Hp|Hp]; [|done].
  rewrite filter_cons, decide_True by done. by rewrite IH.
Qed.

Lemma normalizePaths_host h' paths cwd :
  Path.isAbsolute cwd = true →
  normalizePaths h' paths cwd = normalizePaths h paths cwd.
Proof.
  intros Habs. unfold normalizePaths. f_equal. apply list_fmap_ext.
  intros _ p _. by rewrite (resolve_absolute_base h' h).
Qed.

Context (this : SandboxWrapper).

Lemma elem_of_readWriteSet workDir x :
  x ∈ readWriteSet h this workDir ↔
  x = workDir
  ∨ x ∈ normalizePaths h (default [] (allowPaths (config this))) workDir.
Proof. unfold readWriteSet. by rewrite elem_of_new_Set, elem_of_cons. Qed.

Lemma elem_of_readOnlyCandidates workDir x :
  x ∈ readOnlyCandidates h this workDir ↔
  x ∈ normalizePaths h (default [] (readOnlyPaths (config this))) workDir
  ∨ x ∈ normalizePaths h (authPaths (requirements this)) workDir
  ∨ x ∈ normalizePaths h (binaryPaths (requirements this)) workDir
  ∨ x ∈ normalizePaths h (runtimePaths (requirements this)) workDir.
Proof.
  unfold readOnlyCandidates, getRequirementPaths.
  by rewrite elem_of_new_Set, elem_of_app, !elem_of_normalizePaths_app.
Qed.

Lemma elem_of_readOnlySet workDir x :
  x ∈ readOnlySet h this workDir ↔
  x ∈ readOnlyCandidates h this workDir ∧ x ∉ readWriteSet h this workDir.
Proof. apply foldl_set_delete_elem. Qed.

Lemma NoDup_readWriteSet workDir : NoDup (readWriteSet h this workDir).
Proof. apply NoDup_new_Set. Qed.

Lemma NoDup_readOnlySet workDir : NoDup (readOnlySet h this workDir).
Proof. apply foldl_set_delete_NoDup, NoDup_new_Set. Qed.

Lemma workDirOf_isAbsolute_cwd options :
  Path.isAbsolute (process_cwd h) = true →
  Path.isAbsolute (workDirOf h options) = true.
Proof. apply resolve_isAbsolute_cwd. Qed.

Lemma normalizePaths_isAbsolute paths cwd x :
  Path.isAbsolute (process_cwd h) = true →
  x ∈ normalizePaths h paths cwd → Path.isAbsolute x = true.
Proof.
  intros Habs (p & _ & _ & ->)%elem_of_normalizePaths.
  destruct (Path.isAbsolute p) eqn:Hp; [done|].
  by apply resolve_isAbsolute_cwd.
Qed.

(** Every path that gets a bind from the policy is absolute. *)
Lemma policy_paths_isAbsolute options x :
  Path.isAbsolute (process_cwd h) = true →
  x ∈ readWriteSet h this (workDirOf h options)
      ++ readOnlySet h this (workDirOf h options) →
  Path.isAbsolute x = true.
Proof.
  intros Habs [Hrw|Hro]%elem_of_app.
  - apply elem_of_readWriteSet in Hrw as [->|Hrw].
    + by apply workDirOf_isAbsolute_cwd.
    + by eapply normalizePaths_isAbsolute.
  - apply elem_of_readOnlySet in Hro as [Hro _].
    apply elem_of_readOnlyCandidates in Hro as [?|[?|[?|?]]];
      by eapply normalizePaths_isAbsolute.
Qed.

End NormalizeFacts.

(** ** Which directives a wrapped command holds *)

Section PlanFacts.
Context (h : Host) (this : SandboxWrapper) (options : SandboxWrapOptions).
Implicit Types (p q : jsstring).

Lemma Bind_in_plan p q :
  Bind p q ∈ sandboxPlan h this options ↔
  p = q ∧ p ∈ readWriteSet h this (workDirOf h options).
Proof.
  unfold sandboxPlan. cbv zeta.
  rewrite !elem_of_app, !list_elem_of_fmap, !elem_of_cons, elem_of_nil.
  split.
  - intros [[?|[?|[?|[]]]]|[Hnet|[(d & ? & _)|[(x & [= -> ->] & ?)|[(x & ? & _)|[?|[]]]]]]];
      try discriminate; [|done].
    destruct (decide _); [apply list_elem_of_singleton in Hnet|apply elem_of_nil in Hnet];
      done.
  - intros [-> ?]. right; right; right; left. by exists q.
Qed.

Lemma RoBind_in_plan p q :
  RoBind p q ∈ sandboxPlan h this options ↔
  p = q ∧ ((p ∈ SYSTEM_DIRS ∧ existsSync h p = true)
           ∨ p ∈ readOnlySet h this (workDirOf h options)).
Proof.
  unfold sandboxPlan. cbv zeta.
  rewrite !elem_of_app, !list_elem_of_fmap, !elem_of_cons, elem_of_nil.
  split.
  - intros [[?|[?|[?|[]]]]|[Hnet|[(d & [= -> ->] & Hd)|[(x & ? & _)|[(x & [= -> ->] & ?)|[?|[]]]]]]];
      try discriminate.
    + destruct (decide _); [apply list_elem_of_singleton in Hnet|apply elem_of_nil in Hnet];
        done.
    + apply list_elem_of_filter in Hd as [? ?]. split; [done|]. by left.
    + split; [done|]. by right.
  - intros [-> [[? ?]|?]].
    + right; right; left. exists q. split; [done|]. by apply list_elem_of_filter.
    + right; right; right; right; left. by exists q.
Qed.

Lemma UnshareNet_count :
  length (filter (λ d, d = UnshareNet) (sandboxPlan h this options))
  = if decide (network (config this) = Some false) then 1%nat else 0%nat.
Proof.
  unfold sandboxPlan. cbv zeta.
  assert (∀ (f : jsstring → directive) (l : list jsstring),
            (∀ x, f x ≠ UnshareNet) →
            filter (λ d, d = UnshareNet) (f <$> l) = []) as Hnone.
  { intros f l Hf. induction l as [|x l IH]; [done|].
    rewrite fmap_cons, filter_cons, decide_False by apply Hf. done. }
  rewrite !filter_app, !Hnone by done.
  rewrite !length_app. destruct (decide _); done.
Qed.

End PlanFacts.

Section PlanOrder.
Context (h : Host) (this : SandboxWrapper) (options : SandboxWrapOptions).

(** A writable bind is never followed by a read-only bind of the same path:
    the read-only binds of the policy come last and exclude every read-write
    path. *)
Lemma Bind_not_followed_by_RoBind (p : jsstring) :
  p ∈ readWriteSet h this (workDirOf h options) →
  ∃ before after,
    sandboxPlan h this options = before ++ Bind p p :: after
    ∧ RoBind p p ∉ after.
Proof.
  intros Hp. pose proof Hp as (l1 & l2 & Hsplit)%list_elem_of_split.
  set (workDir := workDirOf h options) in *.
  exists ([DieWithParent; Dev (js "/dev"); Proc (js "/proc")]
          ++ (if decide (network (config this) = Some false)
              then [UnshareNet] else [])
          ++ ((λ d, RoBind d d) <$> filter (λ d, existsSync h d = true) SYSTEM_DIRS)
          ++ ((λ p, Bind p p) <$> l1)),
         (((λ p, Bind p p) <$> l2)
          ++ ((λ p, RoBind p p) <$> readOnlySet h this workDir)
          ++ [Chdir workDir]).
  split.
  - unfold sandboxPlan. fold workDir. cbv zeta.
    rewrite Hsplit, fmap_app, fmap_cons.
    rewrite <- !app_assoc. reflexivity.
  - rewrite !elem_of_app, !list_elem_of_fmap, list_elem_of_singleton.
    intros [(x & ? & _)|[(x & [= ->] & Hro)|?]]; try discriminate.
    apply elem_of_readOnlySet in Hro as [_ Hro]. done.
Qed.

End PlanOrder.

(** ** The tokens of the option part *)

Section TokenFacts.
Context (h : Host) (this : SandboxWrapper) (options : SandboxWrapOptions).

Lemma absolute_not_flag (p t : jsstring) :
  Path.isAbsolute p = true → Path.isAbsolute t = false → p ≠ t.
Proof. intros Hp Ht ->. congruence. Qed.

Lemma filter_token_binds (t flag : jsstring) (l : list jsstring) :
  flag ≠ t → (∀ p, p ∈ l → p ≠ t) →
  filter (λ x, x = t) (l ≫= λ p, [flag; p; p]) = [].
Proof.
  intros Hflag Hl. induction l as [|p l IH]; [done|].
  cbn [mbind list_bind app].
  rewrite filter_cons, decide_False by done.
  rewrite filter_cons, decide_False by (apply Hl; left).
  rewrite filter_cons, decide_False by (apply Hl; left).
  apply IH. intros q Hq. apply Hl. by right.
Qed.

(** Before the command, the token [--unshare-net] stands in the vector only
    as the network flag: every operand is an absolute path. *)
Lemma unshare_token_count :
  Path.isAbsolute (process_cwd h) = true →
  length (filter (λ t, t = js "--unshare-net")
            ((sandboxPlan h this options ≫= render) ++ [js "--"]))
  = if decide (network (config this) = Some false) then 1%nat else 0%nat.
Proof.
  intros Habs. unfold sandboxPlan. cbv zeta.
  rewrite !bind_app, !bind_fmap_render, !filter_app, !length_app.
  rewrite (filter_token_binds _ (js "--ro-bind")
             (filter (λ d, existsSync h d = true) SYSTEM_DIRS)).
  2: discriminate.
  2: { intros p [_ Hp]%list_elem_of_filter. apply absolute_not_flag; [|done].
       revert Hp. unfold SYSTEM_DIRS. cbn [fmap list_fmap].
       rewrite !elem_of_cons, elem_of_nil.
       intros [->|[->|[->|[->|[->|[->|[]]]]]]]; reflexivity. }
  rewrite (filter_token_binds _ (js "--bind")).
  2: discriminate.
  2: { intros p Hp. apply absolute_not_flag; [|done].
       apply (policy_paths_isAbsolute h this options); [done|].
       apply elem_of_app. by left. }
  rewrite (filter_token_binds _ (js "--ro-bind")).
  2: discriminate.
  2: { intros p Hp. apply absolute_not_flag; [|done].
       apply (policy_paths_isAbsolute h this options); [done|].
       apply elem_of_app. by right. }
  cbn [mbind list_bind render app].
  assert (filter (λ t, t = js "--unshare-net")
            [js "--chdir"; workDirOf h options] = []) as ->.
  { rewrite filter_cons, decide_False by (intros [=]).
    rewrite filter_cons, decide_False; [done|].
    apply absolute_not_flag; [by apply workDirOf_isAbsolute_cwd|done]. }
  destruct (decide (network (config this) = Some false)); reflexivity.
Qed.

End TokenFacts.

(** ** Independence from the ambient working directory *)

Section WorkDirFacts.
Context (h : Host) (this : SandboxWrapper).

Lemma workDirOf_host pc c :
  Path.isAbsolute c = true →
  workDirOf (withProcessCwd pc h) {| cwd := Some c |}
  = workDirOf h {| cwd := Some c |}.
Proof. intros Hc. unfold workDirOf. simpl. by apply resolve_absolute_base. Qed.

Lemma workDirOf_isAbsolute c :
  Path.isAbsolute c = true →
  Path.isAbsolute (workDirOf h {| cwd := Some c |}) = true.
Proof. intros Hc. unfold workDirOf. simpl. by apply resolve_isAbsolute. Qed.

(** With an absolute [options.cwd] the wrapped command does not depend on
    the ambient working directory of the process. *)
Lemma wrapWithBwrap_host pc c cmd argv :
  Path.isAbsolute c = true →
  wrapWithBwrap (withProcessCwd pc h) this cmd argv {| cwd := Some c |}
  = wrapWithBwrap h this cmd argv {| cwd := Some c |}.
Proof.
  intros Hc. pose proof (workDirOf_isAbsolute c Hc) as Habs.
  unfold wrapWithBwrap, readOnlySet, readOnlyCandidates, readWriteSet.
  rewrite (workDirOf_host pc c Hc).
  rewrite !(normalizePaths_host h (withProcessCwd pc h)) by done.
  reflexivity.
Qed.

Lemma NoDup_policy_binds workDir :
  NoDup (readWriteSet h this workDir ++ readOnlySet h this workDir).
Proof.
  apply NoDup_app. split_and!.
  - apply NoDup_readWriteSet.
  - intros x Hrw [_ Hro]%elem_of_readOnlySet. done.
  - apply NoDup_readOnlySet.
Qed.

End WorkDirFacts.

(** ** Blank entries change nothing *)

Section BlankFacts.
Context (h : Host) (this : SandboxWrapper).






End BlankFacts.

(** ** The heap-level methods compute the same vector and write nowhere else *)

Section HeapFacts.
Context (h : Host) (this : SandboxWrapper).

Lemma pushAt_last (hp : heap) (a items : list jsstring) :
  pushAt (length hp) items (hp ++ [a]) = hp ++ [push a items].
Proof.
  unfold pushAt. rewrite <- (Nat.add_0_r (length hp)) at 1.
  by rewrite alter_app_r.
Qed.

Lemma foldl_pushAt (f : jsstring → list jsstring) (l : list jsstring)
    (hp : heap) (a : list jsstring) :
  foldl (λ hp' x, pushAt (length hp) (f x) hp') (hp ++ [a]) l
  = hp ++ [foldl (λ acc x, push acc (f x)) a l].
Proof.
  revert a. induction l as [|x l IH]; intros a; simpl; [done|].
  by rewrite pushAt_last, IH.
Qed.

Lemma foldl_pushAt_filter (c : jsstring → bool) (f : jsstring → list jsstring)
    (l : list jsstring) (hp : heap) (a : list jsstring) :
  foldl (λ hp' x, if c x then pushAt (length hp) (f x) hp' else hp') (hp ++ [a]) l
  = hp ++ [foldl (λ acc x, if c x then push acc (f x) else acc) a l].
Proof.
  revert a. induction l as [|x l IH]; intros a; simpl; [done|].
  destruct (c x); [rewrite pushAt_last|]; apply IH.
Qed.

(** The heap-level method allocates one array, fills it with the vector of
    the value-level method, and leaves the rest of the heap as it was. *)
Lemma wrapWithBwrapRef_spec cmd (argsR : ref) argv options (hp : heap) :
  hp !! argsR = Some argv →
  wrapWithBwrapRef h this cmd argsR options hp
  = ({| commandRef := js "bwrap"; argsRef := length hp |},
     hp ++ [args (wrapWithBwrap h this cmd argv options)]).
Proof.
  intros Hargs. unfold wrapWithBwrapRef, wrapWithBwrap, alloc.
  cbv beta iota zeta. cbn [args]. f_equal.
  assert (∀ a, spread argsR (hp ++ [a]) = argv) as Hspread.
  { intros a. unfold spread. by rewrite (lookup_app_l_Some _ _ _ _ Hargs). }
  destruct (decide (network (config this) = Some false));
    rewrite ?pushAt_last, foldl_pushAt_filter, !foldl_pushAt, Hspread, pushAt_last;
    reflexivity.
Qed.

Lemma wrapCommandRef_spec cmd (argsR : ref) argv options (hp : heap) :
  hp !! argsR = Some argv →
  let wr := (wrapCommandRef h this cmd argsR options hp).1 in
  let hp' := (wrapCommandRef h this cmd argsR options hp).2 in
  commandRef wr = command (wrapCommand h this cmd argv options)
  ∧ hp' !! argsRef wr = Some (args (wrapCommand h this cmd argv options))
  ∧ (∀ r a, hp !! r = Some a → hp' !! r = Some a).
Proof.
  intros Hargs. unfold wrapCommandRef, wrapCommand.
  destruct (decide (_ ∨ _)); [done|]. cbv zeta.
  destruct (decide (_ ∧ _)); [done|].
  rewrite (wrapWithBwrapRef_spec _ _ _ _ _ Hargs). cbn [fst snd commandRef argsRef].
  split_and!; [done| |].
  - rewrite lookup_app_r by done. by rewrite Nat.sub_diag.
  - intros r a Hr. by apply lookup_app_l_Some.
Qed.

Lemma wrapCommand_wrapped cmd argv options :
  enabled (config this) ≠ Some false →
  mode (config this) ≠ Some (js "off") →
  default (js "auto") (mode (config this)) = js "auto"
  ∨ default (js "auto") (mode (config this)) = js "bwrap" →
  wrapCommand h this cmd argv options = wrapWithBwrap h this cmd argv options.
Proof.
  intros He Hoff Hmode. unfold wrapCommand.
  destruct (decide (_ ∨ _)) as [[?|?]|_]; [done|done|]. cbv zeta.
  destruct (decide (_ ∧ _)) as [[? ?]|_]; [|done]. by destruct Hmode.
Qed.

End HeapFacts.

(** * The claims *)

(** ** C1: read-write precedence *)

(** C1, as stated, fails: a path listed both in [allowPaths] and in
    [readOnlyPaths] that is also one of the system directories present on the
    host does appear as a read-only bind in the argument vector, emitted by
    the system-directory step ahead of the writable bind. *)
Lemma C1_counterexample_system_dir :
  js "/usr" ∈ normalizePaths hostA (default [] (allowPaths (config usrWrapper)))
                (workDirOf hostA projOptions)
  ∧ js "/usr" ∈ normalizePaths hostA (default [] (readOnlyPaths (config usrWrapper)))
                  (workDirOf hostA projOptions)
  ∧ args (wrapWithBwrap hostA usrWrapper (js "ls") [] projOptions)
    = js <$> ["--die-with-parent"; "--dev"; "/dev"; "--proc"; "/proc";
              "--ro-bind"; "/usr"; "/usr"; "--ro-bind"; "/bin"; "/bin";
              "--ro-bind"; "/lib"; "/lib"; "--ro-bind"; "/etc"; "/etc";
              "--bind"; "/proj"; "/proj"; "--bind"; "/usr"; "/usr";
              "--chdir"; "/proj"; "--"; "ls"]%string
  ∧ RoBind (js "/usr") (js "/usr")
      ∈ directivesOf (wrapWithBwrap hostA usrWrapper (js "ls") [] projOptions).
Proof. split_and!; [by_compute|by_compute|by vm_compute|by_compute]. Qed.

(** C1, amended: the resolved [readWrite] and [readOnly] sets are disjoint,
    and a path that occurs, as the same normalized string, both among the
    read-write sources and among the read-only candidates is bound writable,
    is absent from the resolved read-only set, and has no read-only bind after
    its writable bind; the only read-only bind of it that the vector can hold
    is the one of the system-directory step, when the path is one of the
    fixed system directories and exists on the host. *)
Theorem C1_read_write_precedence h this cmd argv options :
  let workDir := workDirOf h options in
  let ds := directivesOf (wrapWithBwrap h this cmd argv options) in
  (∀ p, p ∈ readWriteSet h this workDir → p ∉ readOnlySet h this workDir)
  ∧ (∀ p,
       (p = workDir
        ∨ p ∈ normalizePaths h (default [] (allowPaths (config this))) workDir) →
       (p ∈ normalizePaths h (default [] (readOnlyPaths (config this))) workDir
        ∨ p ∈ normalizePaths h (authPaths (requirements this)) workDir
        ∨ p ∈ normalizePaths h (binaryPaths (requirements this)) workDir
        ∨ p ∈ normalizePaths h (runtimePaths (requirements this)) workDir) →
       Bind p p ∈ ds
       ∧ (p ∉ readOnlySet h this workDir)
       ∧ (RoBind p p ∈ ds → p ∈ SYSTEM_DIRS ∧ existsSync h p = true)
       ∧ ∃ before after, ds = before ++ Bind p p :: after
                         ∧ RoBind p p ∉ after).
Proof.
  intros workDir ds. subst ds. rewrite directivesOf_wrapWithBwrap.
  assert (∀ p, p ∈ readWriteSet h this workDir → p ∉ readOnlySet h this workDir)
    as Hdisj.
  { intros p Hrw [_ Hro]%elem_of_readOnlySet. done. }
  split; [exact Hdisj|].
  intros p Hrw%elem_of_readWriteSet _. split_and!.
  - by apply Bind_in_plan.
  - by apply Hdisj.
  - intros [_ [Hsys|Hro]]%RoBind_in_plan; [done|]. by apply Hdisj in Hro.
  - by apply Bind_not_followed_by_RoBind.
Qed.

Lemma C1_read_write_precedence_witness :
  Bind (js "/proj/out") (js "/proj/out")
    ∈ directivesOf (wrapWithBwrap hostA collidingWrapper (js "echo") [js "hi"] projOptions)
  ∧ js "/proj/out" ∉ readOnlySet hostA collidingWrapper (workDirOf hostA projOptions).
Proof.
  pose proof (C1_read_write_precedence hostA collidingWrapper (js "echo")
                [js "hi"] projOptions) as [_ H].
  destruct (H (js "/proj/out")) as (Hb & Hro & _).
  - right. by_compute.
  - left. by_compute.
  - exact (conj Hb Hro).
Defined.

(** ** C2: the working directory is always writable *)

(** C2: for every host, policy, requirements and options, the resolved
    working directory (the absolute form of [options.cwd], or of the ambient
    directory when that is absent) is the first member of the [readWrite]
    set, is never a member of the resolved [readOnly] set, and the argument
    vector holds a writable bind of it that no read-only bind of it follows;
    whatever [readOnlyPaths] and the requirement lists hold. *)
Theorem C2_workdir_always_read_write h this cmd argv options :
  let workDir := workDirOf h options in
  let w := wrapWithBwrap h this cmd argv options in
  workDir = Path.resolve h [default (process_cwd h) (cwd options)]
  ∧ (Path.isAbsolute (process_cwd h) = true → Path.isAbsolute workDir = true)
  ∧ (∃ rest, readWriteSet h this workDir = workDir :: rest)
  ∧ workDir ∈ readWriteSet h this workDir
  ∧ (workDir ∉ readOnlySet h this workDir)
  ∧ Bind workDir workDir ∈ directivesOf w
  ∧ (∃ before after,
       directivesOf w = before ++ Bind workDir workDir :: after
       ∧ RoBind workDir workDir ∉ after)
  ∧ (∃ pre post,
       args w = pre ++ [js "--bind"; workDir; workDir] ++ post).
Proof.
  intros workDir w. subst w. rewrite directivesOf_wrapWithBwrap.
  assert (workDir ∈ readWriteSet h this workDir) as Hrw.
  { apply elem_of_readWriteSet. by left. }
  split_and!.
  - done.
  - apply workDirOf_isAbsolute_cwd.
  - apply new_Set_cons.
  - done.
  - intros [_ ?]%elem_of_readOnlySet. done.
  - by apply Bind_in_plan.
  - by apply Bind_not_followed_by_RoBind.
  - destruct (Bind_not_followed_by_RoBind h this options workDir Hrw)
      as (before & after & Hplan & _).
    rewrite wrapWithBwrap_args. fold workDir in Hplan. rewrite Hplan.
    exists (before ≫= render), ((after ≫= render) ++ js "--" :: cmd :: argv).
    rewrite bind_app, bind_cons. cbn [render]. by rewrite <- !app_assoc.
Qed.

Lemma C2_workdir_always_read_write_witness :
  js "/proj" ∈ default [] (readOnlyPaths (config collidingWrapper))
  ∧ workDirOf hostA projOptions = js "/proj"
  ∧ Bind (js "/proj") (js "/proj")
      ∈ directivesOf (wrapWithBwrap hostA collidingWrapper (js "echo") [js "hi"] projOptions)
  ∧ (js "/proj" ∉ readOnlySet hostA collidingWrapper (js "/proj")).
Proof.
  pose proof (C2_workdir_always_read_write hostA collidingWrapper (js "echo")
                [js "hi"] projOptions) as (Hw & _ & _ & _ & Hro & Hb & _).
  assert (workDirOf hostA projOptions = js "/proj") as Hwd by (by vm_compute).
  rewrite Hwd in Hro, Hb.
  split_and!; [by_compute|exact Hwd|exact Hb|exact Hro].
Defined.

(** ** C3: the decision gate *)

(** C3: when [enabled] is [false], or [mode] is ['off'], or [mode] (an
    absent one counting as ['auto']) is neither ['auto'] nor ['bwrap'],
    [wrapCommand] returns [{command, args}] as given. *)
Theorem C3_pass_through h this cmd argv options :
  enabled (config this) = Some false
  ∨ mode (config this) = Some (js "off")
  ∨ (default (js "auto") (mode (config this)) ≠ js "auto"
     ∧ default (js "auto") (mode (config this)) ≠ js "bwrap") →
  wrapCommand h this cmd argv options = {| command := cmd; args := argv |}.
Proof.
  intros Hgate. unfold wrapCommand.
  destruct (decide (_ ∨ _)) as [|Hn]; [done|].
  cbv zeta. destruct (decide (_ ∧ _)) as [|Hn']; [done|].
  destruct Hgate as [?|[?|?]]; [destruct Hn; by left|destruct Hn; by right|done].
Qed.

Lemma C3_pass_through_witness :
  wrapCommand hostA (withGate (Some false) (Some (js "bwrap")) exampleWrapper)
    (js "echo") [js "hi"] projOptions
  = {| command := js "echo"; args := [js "hi"] |}
  ∧ wrapCommand hostA (withGate (Some true) (Some (js "off")) exampleWrapper)
      (js "echo") [js "hi"] projOptions
    = {| command := js "echo"; args := [js "hi"] |}
  ∧ wrapCommand hostA (withGate None (Some (js "sandbox-exec")) exampleWrapper)
      (js "echo") [js "hi"] projOptions
    = {| command := js "echo"; args := [js "hi"] |}.
Proof.
  split_and!; apply C3_pass_through.
  - left. reflexivity.
  - right; left. reflexivity.
  - right; right. split; intros [=].
Defined.

(** ** C4: the original command line is the tail of the vector *)

(** C4: when the gate lets the call through to the wrapping, the vector ends
    with [--chdir workDir -- command ...args]: the original command and
    arguments, in order, are its trailing part and are what the backend is
    given to run.  The array [args] of the caller, and every other array
    that existed before the call, holds afterwards what it held before; the
    vector is a new array. *)
Theorem C4_payload_trailing_and_untouched h this cmd (argsR : ref) argv
    options (hp : heap) :
  hp !! argsR = Some argv →
  enabled (config this) ≠ Some false →
  mode (config this) ≠ Some (js "off") →
  default (js "auto") (mode (config this)) = js "auto"
  ∨ default (js "auto") (mode (config this)) = js "bwrap" →
  let w := wrapCommand h this cmd argv options in
  let wr := (wrapCommandRef h this cmd argsR options hp).1 in
  let hp' := (wrapCommandRef h this cmd argsR options hp).2 in
  ([js "--chdir"; workDirOf h options; js "--"; cmd] ++ argv) `suffix_of` args w
  ∧ payloadOf w = cmd :: argv
  ∧ commandRef wr = command w
  ∧ hp' !! argsRef wr = Some (args w)
  ∧ argsRef wr ≠ argsR
  ∧ hp' !! argsR = Some argv
  ∧ (∀ r a, hp !! r = Some a → hp' !! r = Some a).
Proof.
  intros Hargs He Hoff Hmode w wr hp'.
  destruct (wrapCommandRef_spec h this cmd argsR argv options hp Hargs)
    as (Hc & Ha & Hframe).
  fold w wr hp' in Hc, Ha, Hframe.
  assert (w = wrapWithBwrap h this cmd argv options) as Hw
    by by apply wrapCommand_wrapped.
  split_and!; [| |done|done| |by apply Hframe|done].
  - rewrite Hw. unfold wrapWithBwrap. cbn [args]. by apply suffix_app_r.
  - rewrite Hw. apply payloadOf_wrapWithBwrap.
  - intros Heq. rewrite Heq, (Hframe _ _ Hargs) in Ha.
    injection Ha as Ha. apply (f_equal length) in Ha.
    rewrite Hw, wrapWithBwrap_args, length_app in Ha. simpl in Ha. lia.
Qed.

Lemma C4_payload_trailing_and_untouched_witness :
  js <$> ["--chdir"; "/proj"; "--"; "echo"; "hi"]%string
    `suffix_of` args (wrapCommand hostA exampleWrapper (js "echo") [js "hi"] projOptions)
  ∧ (wrapCommandRef hostA exampleWrapper (js "echo") 1%nat projOptions
       [[js "-l"]; [js "hi"]]).2 !! 1%nat = Some [js "hi"].
Proof.
  pose proof (C4_payload_trailing_and_untouched hostA exampleWrapper (js "echo")
                1%nat [js "hi"] projOptions [[js "-l"]; [js "hi"]]) as H.
  destruct H as (Hs & _ & _ & _ & _ & Hkeep & _).
  - reflexivity.
  - discriminate.
  - discriminate.
  - left. reflexivity.
  - split; [|exact Hkeep].
    replace (workDirOf hostA projOptions) with (js "/proj") in Hs by (by vm_compute).
    exact Hs.
Defined.

(** ** C5: the network flag *)

(** C5: among the sandbox directives of a wrapped command the
    network-unshare flag occurs exactly once when [network] is [false], and
    not at all when it is [true] or absent; on a host whose ambient working
    directory is absolute, the same count holds for the token
    [--unshare-net] in the part of the vector that precedes the command. *)
Theorem C5_network_flag h this cmd argv options :
  let w := wrapWithBwrap h this cmd argv options in
  let n := match network (config this) with
           | Some false => 1%nat
           | Some true | None => 0%nat
           end in
  length (filter (λ d, d = UnshareNet) (directivesOf w)) = n
  ∧ (Path.isAbsolute (process_cwd h) = true →
     ∃ opts, args w = opts ++ cmd :: argv
             ∧ length (filter (λ t, t = js "--unshare-net") opts) = n).
Proof.
  intros w n. subst w n. split.
  - rewrite directivesOf_wrapWithBwrap, UnshareNet_count.
    destruct (network (config this)) as [[]|]; reflexivity.
  - intros Habs.
    exists ((sandboxPlan h this options ≫= render) ++ [js "--"]). split.
    + rewrite wrapWithBwrap_args, <- app_assoc. reflexivity.
    + rewrite unshare_token_count by done.
      destruct (network (config this)) as [[]|]; reflexivity.
Qed.

Lemma C5_network_flag_witness :
  length (filter (λ d, d = UnshareNet)
            (directivesOf (wrapWithBwrap hostA exampleWrapper (js "echo")
                             [js "--unshare-net"] projOptions))) = 1%nat
  ∧ length (filter (λ d, d = UnshareNet)
              (directivesOf (wrapWithBwrap hostA usrWrapper (js "echo")
                               [js "--unshare-net"] projOptions))) = 0%nat.
Proof.
  split.
  - apply (C5_network_flag hostA exampleWrapper (js "echo")
             [js "--unshare-net"] projOptions).
  - apply (C5_network_flag hostA usrWrapper (js "echo")
             [js "--unshare-net"] projOptions).
Defined.

(** ** C6: the system directories *)

(** C6, as stated, fails in the "only if" direction: on a host without
    [/lib64], a policy that lists [/lib64] in [readOnlyPaths] yields a vector
    with a read-only self-bind of [/lib64], from the read-only set. *)
Lemma C6_counterexample_listed_read_only :
  js "/lib64" ∈ SYSTEM_DIRS
  ∧ existsSync hostA (js "/lib64") = false
  ∧ args (wrapWithBwrap hostA lib64Wrapper (js "ls") [] projOptions)
    = js <$> ["--die-with-parent"; "--dev"; "/dev"; "--proc"; "/proc";
              "--ro-bind"; "/usr"; "/usr"; "--ro-bind"; "/bin"; "/bin";
              "--ro-bind"; "/lib"; "/lib"; "--ro-bind"; "/etc"; "/etc";
              "--bind"; "/proj"; "/proj"; "--ro-bind"; "/lib64"; "/lib64";
              "--chdir"; "/proj"; "--"; "ls"]%string
  ∧ RoBind (js "/lib64") (js "/lib64")
      ∈ directivesOf (wrapWithBwrap hostA lib64Wrapper (js "ls") [] projOptions).
Proof. split_and!; [by_compute|by vm_compute|by vm_compute|by_compute]. Qed.

(** C6, amended: for every directory [d] of the fixed list, the vector holds
    a read-only self-bind of [d] if and only if [d] exists on the host or [d]
    is a member of the resolved read-only set of the policy.  The
    system-directory step itself emits, right after the seed and the network
    flag, one read-only self-bind for each listed directory that exists, in
    the order of the list, and nothing else. *)
Theorem C6_system_directories h this cmd argv options :
  let workDir := workDirOf h options in
  let ds := directivesOf (wrapWithBwrap h this cmd argv options) in
  (∀ d, d ∈ SYSTEM_DIRS →
        (RoBind d d ∈ ds ↔
         existsSync h d = true ∨ d ∈ readOnlySet h this workDir))
  ∧ ds = ([DieWithParent; Dev (js "/dev"); Proc (js "/proc")]
          ++ (if decide (network (config this) = Some false)
              then [UnshareNet] else []))
         ++ ((λ d, RoBind d d) <$> filter (λ d, existsSync h d = true) SYSTEM_DIRS)
         ++ (((λ p, Bind p p) <$> readWriteSet h this workDir)
             ++ ((λ p, RoBind p p) <$> readOnlySet h this workDir)
             ++ [Chdir workDir])
  ∧ SYSTEM_DIRS = js <$> ["/usr"; "/bin"; "/lib"; "/lib64"; "/sbin"; "/etc"]%string.
Proof.
  intros workDir ds. subst ds. rewrite directivesOf_wrapWithBwrap.
  split_and!.
  - intros d Hd. rewrite RoBind_in_plan. fold workDir. tauto.
  - unfold sandboxPlan. fold workDir. cbv zeta. by rewrite <- !app_assoc.
  - reflexivity.
Qed.

Lemma C6_system_directories_witness :
  RoBind (js "/usr") (js "/usr")
    ∈ directivesOf (wrapWithBwrap hostA exampleWrapper (js "echo") [js "hi"] projOptions)
  ∧ (RoBind (js "/lib64") (js "/lib64")
       ∉ directivesOf (wrapWithBwrap hostA exampleWrapper (js "echo") [js "hi"] projOptions)).
Proof.
  pose proof (C6_system_directories hostA exampleWrapper (js "echo")
                [js "hi"] projOptions) as [H _].
  split.
  - apply (H (js "/usr")); [by_compute|]. left. reflexivity.
  - intros Hin. apply (H (js "/lib64")) in Hin; [|by_compute].
    destruct Hin as [Hex|Hro]; [discriminate Hex|].
    revert Hro. refine (bool_decide_unpack (_ ∉ _) _). vm_compute. exact I.
Defined.

(** ** C7: normalization of a path list *)

(** C7: [normalizePaths] keeps an absolute entry as it is, resolves a
    relative, non-blank entry against the working directory it is given, which
    in [wrapWithBwrap] is the resolved [options.cwd] (with an absolute
    [options.cwd] nothing depends on the ambient directory of the process),
    drops the entries that [trim] empties, which are the ones made of white
    space only, and returns each normalized path once; in the vector every
    path of the policy gets one bind. *)
Theorem C7_normalize_paths h this cmd argv options paths workDir :
  (∀ x, x ∈ normalizePaths h paths workDir ↔
        ∃ p, p ∈ paths ∧ (0 < length (JS.trim p))%nat
             ∧ x = if Path.isAbsolute p then p else Path.resolve h [workDir; p])
  ∧ (∀ p, p ∈ paths → Path.isAbsolute p = true →
          p ∈ normalizePaths h paths workDir)
  ∧ (∀ p, p ∈ paths → Path.isAbsolute p = false → (0 < length (JS.trim p))%nat →
          Path.resolve h [workDir; p] ∈ normalizePaths h paths workDir)
  ∧ (∀ pc, Path.isAbsolute workDir = true →
           normalizePaths (withProcessCwd pc h) paths workDir
           = normalizePaths h paths workDir)
  ∧ (∀ a, a ∈ default [] (allowPaths (config this)) →
          Path.isAbsolute a = false → (0 < length (JS.trim a))%nat →
          Bind (Path.resolve h [workDirOf h options; a])
               (Path.resolve h [workDirOf h options; a])
            ∈ directivesOf (wrapWithBwrap h this cmd argv options))
  ∧ (∀ r, r ∈ default [] (readOnlyPaths (config this)) →
          Path.isAbsolute r = false → (0 < length (JS.trim r))%nat →
          Path.resolve h [workDirOf h options; r]
            ∈ readOnlyCandidates h this (workDirOf h options))
  ∧ (∀ pc c, Path.isAbsolute c = true →
             wrapWithBwrap (withProcessCwd pc h) this cmd argv {| cwd := Some c |}
             = wrapWithBwrap h this cmd argv {| cwd := Some c |})
  ∧ (∀ p, length (JS.trim p) = 0%nat ↔ forallb JS.isWhiteSpace p = true)
  ∧ normalizePaths h (filter (λ p, (0 < length (JS.trim p))%nat) paths) workDir
    = normalizePaths h paths workDir
  ∧ NoDup (normalizePaths h paths workDir)
  ∧ NoDup (readWriteSet h this workDir ++ readOnlySet h this workDir).
Proof.
  split_and!.
  - apply elem_of_normalizePaths.
  - intros p Hp Habs. apply elem_of_normalizePaths. exists p.
    rewrite Habs. split_and!; [done| |done]. by apply isAbsolute_not_blank.
  - intros p Hp Hrel Hnb. apply elem_of_normalizePaths. exists p.
    by rewrite Hrel.
  - intros pc Habs. by apply normalizePaths_host.
  - intros a Ha Hrel Hnb. rewrite directivesOf_wrapWithBwrap.
    apply Bind_in_plan. split; [done|]. apply elem_of_readWriteSet. right.
    apply elem_of_normalizePaths. exists a. by rewrite Hrel.
  - intros r Hr Hrel Hnb. apply elem_of_readOnlyCandidates. left.
    apply elem_of_normalizePaths. exists r. by rewrite Hrel.
  - intros pc c Hc. by apply wrapWithBwrap_host.
  - apply trim_blank_iff.
  - apply normalizePaths_drop_blank.
  - apply NoDup_normalizePaths.
  - apply NoDup_policy_binds.
Qed.

Lemma C7_normalize_paths_witness :
  js "/abs/x/" ∈ normalizePaths hostA mixedPaths (js "/proj")
  ∧ js "/proj/rel" ∈ normalizePaths hostA mixedPaths (js "/proj")
  ∧ js "/up" ∈ normalizePaths hostA mixedPaths (js "/proj")
  ∧ normalizePaths (withProcessCwd (js "/elsewhere") hostA) mixedPaths (js "/proj")
    = normalizePaths hostA mixedPaths (js "/proj")
  ∧ Bind (js "/proj/out") (js "/proj/out")
      ∈ directivesOf (wrapWithBwrap hostA exampleWrapper (js "echo") [js "hi"] projOptions)
  ∧ normalizePaths hostA mixedPaths (js "/proj")
    = js <$> ["/abs/x/"; "/proj/rel"; "/up"]%string.
Proof.
  pose proof (C7_normalize_paths hostA exampleWrapper (js "echo") [js "hi"]
                projOptions mixedPaths (js "/proj"))
    as (_ & Habs & Hrel & Hhost & Hallow & _).
  split_and!.
  - apply Habs; [by_compute|reflexivity].
  - apply (Hrel (js "rel")); [by_compute|reflexivity|vm_compute; lia].
  - apply (Hrel (js "../up")); [by_compute|reflexivity|vm_compute; lia].
  - apply Hhost. reflexivity.
  - apply (Hallow (js "./out")); [by_compute|reflexivity|vm_compute; lia].
  - by vm_compute.
Defined.

(** ** C8: every call returns a wrapped command *)



(** ** C9: paths are compared as strings *)

(** C9: two absolute entries that differ as strings are both kept as given
    by [normalizePaths], whatever location they denote; when the first is
    listed in [allowPaths], the second in [readOnlyPaths], and the second is
    not itself, as a string, a read-write path, the vector binds the first
    writable and the second read-only. *)
Theorem C9_string_equality_only h this cmd argv options (p q : jsstring) :
  Path.isAbsolute p = true →
  Path.isAbsolute q = true →
  p ≠ q →
  p ∈ default [] (allowPaths (config this)) →
  q ∈ default [] (readOnlyPaths (config this)) →
  q ∉ readWriteSet h this (workDirOf h options) →
  let workDir := workDirOf h options in
  let ds := directivesOf (wrapWithBwrap h this cmd argv options) in
  normalizePaths h [p; q] workDir = [p; q]
  ∧ p ∈ readWriteSet h this workDir
  ∧ q ∈ readOnlySet h this workDir
  ∧ Bind p p ∈ ds
  ∧ RoBind q q ∈ ds.
Proof.
  intros Hp Hq Hne Hallow Hro Hq_rw workDir ds. subst ds.
  rewrite directivesOf_wrapWithBwrap.
  assert (p ∈ readWriteSet h this workDir) as Hp_rw.
  { apply elem_of_readWriteSet. right. apply elem_of_normalizePaths.
    exists p. rewrite Hp. split_and!; [done| |done].
    by apply isAbsolute_not_blank. }
  assert (q ∈ readOnlySet h this workDir) as Hq_ro.
  { apply elem_of_readOnlySet. split; [|done].
    apply elem_of_readOnlyCandidates. left. apply elem_of_normalizePaths.
    exists q. rewrite Hq. split_and!; [done| |done].
    by apply isAbsolute_not_blank. }
  split_and!; [|done|done| |].
  - unfold normalizePaths.
    rewrite filter_cons, decide_True by by apply isAbsolute_not_blank.
    rewrite filter_cons, decide_True by by apply isAbsolute_not_blank.
    rewrite filter_nil. cbn [fmap list_fmap]. rewrite Hp, Hq.
    unfold JS.new_Set. cbn [foldl]. unfold JS.set_add.
    destruct (decide (p ∈ [])) as [Hnil|_]; [by apply elem_of_nil in Hnil|].
    cbn [app]. rewrite decide_False; [done|].
    intros ->%list_elem_of_singleton. done.
  - by apply Bind_in_plan.
  - apply RoBind_in_plan. split; [done|]. by right.
Qed.

Lemma C9_string_equality_only_witness :
  (Path.resolve hostA [js "/proj/out/"] = js "/proj/out"
   ∧ Bind (js "/proj/out") (js "/proj/out")
       ∈ directivesOf (wrapWithBwrap hostA spellingWrapper (js "ls") [] projOptions)
   ∧ RoBind (js "/proj/out/") (js "/proj/out/")
       ∈ directivesOf (wrapWithBwrap hostA spellingWrapper (js "ls") [] projOptions))
  ∧ (Path.resolve hostA [js "/proj/x/../out"] = js "/proj/out"
     ∧ RoBind (js "/proj/x/../out") (js "/proj/x/../out")
         ∈ directivesOf (wrapWithBwrap hostA spellingWrapper (js "ls") [] projOptions)).
Proof.
  split.
  - destruct (C9_string_equality_only hostA spellingWrapper (js "ls") []
                projOptions (js "/proj/out") (js "/proj/out/"))
      as (_ & _ & _ & Hb & Hr).
    + reflexivity.
    + reflexivity.
    + discriminate.
    + by_compute.
    + by_compute.
    + refine (bool_decide_unpack (_ ∉ _) _). vm_compute. exact I.
    + split_and!; [by vm_compute|exact Hb|exact Hr].
  - destruct (C9_string_equality_only hostA spellingWrapper (js "ls") []
                projOptions (js "/proj/out") (js "/proj/x/../out"))
      as (_ & _ & _ & _ & Hr).
    + reflexivity.
    + reflexivity.
    + discriminate.
    + by_compute.
    + by_compute.
    + refine (bool_decide_unpack (_ ∉ _) _). vm_compute. exact I.
    + split; [by vm_compute|exact Hr].
Defined.

(** ** C10: the gate is in [wrapCommand] only *)

(** C10: whatever [enabled] and [mode] hold, [wrapWithBwrap] returns the
    [bwrap] command with the full vector, the same as if the two options
    were absent: the seed, the binds, the working-directory pin, then the
    command as given.  [wrapCommand] on the same wrapper passes the command
    through when the gate is closed. *)
Theorem C10_wrapWithBwrap_ungated h this cmd argv options
    (e : option bool) (m : option jsstring) :
  let w := wrapWithBwrap h (withGate e m this) cmd argv options in
  command w = js "bwrap"
  ∧ w = wrapWithBwrap h (withGate None None this) cmd argv options
  ∧ parseOptions (args w) = Some (sandboxPlan h this options, cmd :: argv)
  ∧ (∃ middle,
       directivesOf w
       = [DieWithParent; Dev (js "/dev"); Proc (js "/proc")] ++ middle
         ++ [Chdir (workDirOf h options)])
  ∧ (e = Some false ∨ m = Some (js "off")
     ∨ (default (js "auto") m ≠ js "auto" ∧ default (js "auto") m ≠ js "bwrap") →
     wrapCommand h (withGate e m this) cmd argv options
     = {| command := cmd; args := argv |}
     ∧ wrapCommand h (withGate e m this) cmd argv options ≠ w).
Proof.
  intros w. subst w.
  assert (∀ e' m', sandboxPlan h (withGate e' m' this) options
                   = sandboxPlan h this options) as Hplan by reflexivity.
  split_and!.
  - reflexivity.
  - reflexivity.
  - by rewrite wrapWithBwrap_args, parseOptions_render, Hplan.
  - rewrite directivesOf_wrapWithBwrap, Hplan. unfold sandboxPlan. cbv zeta.
    exists ((if decide (network (config this) = Some false)
             then [UnshareNet] else [])
            ++ ((λ d, RoBind d d) <$> filter (λ d, existsSync h d = true) SYSTEM_DIRS)
            ++ ((λ p, Bind p p) <$> readWriteSet h this (workDirOf h options))
            ++ ((λ p, RoBind p p) <$> readOnlySet h this (workDirOf h options))).
    rewrite <- !app_assoc. reflexivity.
  - intros Hgate.
    assert (wrapCommand h (withGate e m this) cmd argv options
            = {| command := cmd; args := argv |}) as Hpass.
    { unfold wrapCommand. cbn [withGate config enabled mode].
      destruct (decide (_ ∨ _)) as [|Hn]; [done|]. cbv zeta.
      destruct (decide (_ ∧ _)) as [|Hn']; [done|].
      destruct Hgate as [?|[?|?]];
        [destruct Hn; by left|destruct Hn; by right|done]. }
    split; [done|]. rewrite Hpass. intros Heq.
    apply (f_equal (λ w, length (args w))) in Heq.
    rewrite wrapWithBwrap_args, length_app in Heq. simpl in Heq. lia.
Qed.

Lemma C10_wrapWithBwrap_ungated_witness :
  wrapCommand hostA (withGate (Some false) (Some (js "off")) exampleWrapper)
    (js "echo") [js "hi"] projOptions
  = {| command := js "echo"; args := [js "hi"] |}
  ∧ command (wrapWithBwrap hostA (withGate (Some false) (Some (js "off")) exampleWrapper)
               (js "echo") [js "hi"] projOptions)
    = js "bwrap".
Proof.
  pose proof (C10_wrapWithBwrap_ungated hostA exampleWrapper (js "echo")
                [js "hi"] projOptions (Some false) (Some (js "off")))
    as (Hc & _ & _ & _ & Hgate).
  split; [|exact Hc]. apply Hgate. left. reflexivity.
Defined.

(** * Further properties of the wrapper *)

(** ** Order of insertion into a [Set] *)

Section SetOrderFacts.
Import JS.
Implicit Types (s k l acc : list jsstring) (x : jsstring).



Lemma new_Set_NoDup l : NoDup l → new_Set l = l.
Proof.
  induction l as [|x l IH] using rev_ind; [done|].
  intros [Hl [Hx _]]%NoDup_app. unfold new_Set. rewrite foldl_app. cbn [foldl].
  fold (new_Set l). rewrite IH by done. unfold set_add.
  rewrite decide_False; [done|]. intros Hin. apply (Hx x Hin). by left.
Qed.




End SetOrderFacts.

(** ** Where the policy binds come from, and in which order *)

Section OriginFacts.
Context (h : Host) (this : SandboxWrapper).

Lemma normalizePaths_entries paths workDir :
  normalizePaths h paths workDir = JS.new_Set (normalizedEntries h paths workDir).
Proof. reflexivity. Qed.




End OriginFacts.


(** X2: a writable bind in the vector comes from the working directory or
    from an entry of [allowPaths], and from nothing else: [readOnlyPaths] and
    the requirement paths of the agent never make a path writable. *)
Theorem X2_writable_only_from_allowPaths h this cmd argv options (p q : jsstring) :
  Bind p q ∈ directivesOf (wrapWithBwrap h this cmd argv options) ↔
  p = q
  ∧ (p = workDirOf h options
     ∨ ∃ a, a ∈ default [] (allowPaths (config this))
            ∧ (0 < length (JS.trim a))%nat
            ∧ p = if Path.isAbsolute a then a
                  else Path.resolve h [workDirOf h options; a]).
Proof.
  rewrite directivesOf_wrapWithBwrap, Bind_in_plan, elem_of_readWriteSet.
  by rewrite elem_of_normalizePaths.
Qed.

(** X3: on a host whose ambient working directory is absolute, every bind of
    the vector, writable or read-only, mounts an absolute path onto itself. *)
Theorem X3_binds_are_absolute_self_binds h this cmd argv options (p q : jsstring) :
  Path.isAbsolute (process_cwd h) = true →
  Bind p q ∈ directivesOf (wrapWithBwrap h this cmd argv options)
  ∨ RoBind p q ∈ directivesOf (wrapWithBwrap h this cmd argv options) →
  p = q ∧ Path.isAbsolute p = true.
Proof.
  intros Habs. rewrite directivesOf_wrapWithBwrap.
  intros [[-> Hrw]%Bind_in_plan|[-> [[Hsys _]|Hro]]%RoBind_in_plan];
    (split; [done|]).
  - apply (policy_paths_isAbsolute h this options); [done|].
    apply elem_of_app. by left.
  - revert Hsys. unfold SYSTEM_DIRS. cbn [fmap list_fmap].
    rewrite !elem_of_cons, elem_of_nil.
    intros [->|[->|[->|[->|[->|[->|[]]]]]]]; reflexivity.
  - apply (policy_paths_isAbsolute h this options); [done|].
    apply elem_of_app. by right.
Qed.

Lemma X3_binds_are_absolute_self_binds_witness :
  Path.isAbsolute (js "/proj/out") = true.
Proof.
  apply (X3_binds_are_absolute_self_binds hostA exampleWrapper (js "echo")
           [js "hi"] projOptions (js "/proj/out") (js "/proj/out")).
  - reflexivity.
  - left. by_compute.
Defined.

(** X4: on a host whose ambient working directory is absolute,
    [normalizePaths] is idempotent: normalizing its own result again, against
    any working directory, gives the same list. *)
Theorem X4_normalizePaths_idempotent h paths cwd cwd' :
  Path.isAbsolute (process_cwd h) = true →
  normalizePaths h (normalizePaths h paths cwd) cwd' = normalizePaths h paths cwd.
Proof.
  intros Habs.
  assert (∀ l : list jsstring,
            (∀ x, x ∈ l → Path.isAbsolute x = true) →
            normalizedEntries h l cwd' = l) as Hid.
  { intros l Hl. unfold normalizedEntries, nonBlank.
    induction l as [|x l IH]; [done|].
    rewrite filter_cons, decide_True
      by (apply isAbsolute_not_blank, Hl; left).
    rewrite fmap_cons, (Hl x) by left. f_equal.
    apply IH. intros y Hy. apply Hl. by right. }
  rewrite (normalizePaths_entries h (normalizePaths h paths cwd)), Hid.
  - apply new_Set_NoDup, NoDup_normalizePaths.
  - intros x Hx. by eapply normalizePaths_isAbsolute.
Qed.

Lemma X4_normalizePaths_idempotent_witness :
  normalizePaths hostA (normalizePaths hostA mixedPaths (js "/proj")) (js "/other")
  = normalizePaths hostA mixedPaths (js "/proj").
Proof. apply X4_normalizePaths_idempotent. reflexivity. Defined.

(** ** The decision of [wrapCommand], and what the result depends on *)

(** X5: [wrapCommand] returns the command as given exactly when [enabled] is
    [false], or [mode] is ['off'], or [mode] is a value other than ['auto']
    and ['bwrap']; in every other case the result differs from the input. *)
Theorem X5_pass_through_exactly_when_closed h this cmd argv options :
  wrapCommand h this cmd argv options = {| command := cmd; args := argv |} ↔
  enabled (config this) = Some false
  ∨ mode (config this) = Some (js "off")
  ∨ (default (js "auto") (mode (config this)) ≠ js "auto"
     ∧ default (js "auto") (mode (config this)) ≠ js "bwrap").
Proof.
  unfold wrapCommand.
  destruct (decide (_ ∨ _)) as [Hfirst|Hfirst]; [split; [tauto|done]|].
  cbv zeta. destruct (decide (_ ∧ _)) as [Hmode|Hmode]; [split; [tauto|done]|].
  split; [|tauto]. intros Heq.
  apply (f_equal (λ w, length (args w))) in Heq.
  rewrite wrapWithBwrap_args, length_app in Heq. simpl in Heq. lia.
Qed.

Lemma resolve_empty_is_ambient h :
  Path.isAbsolute (process_cwd h) = true →
  Path.resolve h [[]] = Path.resolve h [process_cwd h].
Proof.
  intros Habs. unfold Path.resolve. cbn [reverse rev_append Path.resolveLoop].
  change (reverse [process_cwd h]) with [process_cwd h].
  cbn [Path.resolveLoop].
  destruct (process_cwd h) as [|c pc]; [done|]. by rewrite Habs.
Qed.

(** X6: an empty [options.cwd] is kept by [??], yet [resolve] skips it: on a
    host whose ambient working directory is absolute the result is the one
    of a call without [options.cwd]. *)
Theorem X6_empty_cwd_is_ambient h this cmd argv :
  Path.isAbsolute (process_cwd h) = true →
  wrapCommand h this cmd argv {| cwd := Some [] |}
  = wrapCommand h this cmd argv {| cwd := None |}.
Proof.
  intros Habs.
  assert (workDirOf h {| cwd := Some [] |} = workDirOf h {| cwd := None |}) as Hwd.
  { unfold workDirOf. simpl. by apply resolve_empty_is_ambient. }
  unfold wrapCommand, wrapWithBwrap. by rewrite Hwd.
Qed.

Lemma X6_empty_cwd_is_ambient_witness :
  wrapCommand hostA exampleWrapper (js "echo") [js "hi"] emptyCwdOptions
  = wrapCommand hostA exampleWrapper (js "echo") [js "hi"] noOptions.
Proof. apply X6_empty_cwd_is_ambient. reflexivity. Defined.

Section HostFacts.
Context (h1 h2 : Host) (this : SandboxWrapper).
Hypothesis same_cwd : process_cwd h1 = process_cwd h2.

Lemma resolve_same_cwd (l : list jsstring) : Path.resolve h1 l = Path.resolve h2 l.
Proof. unfold Path.resolve. by rewrite same_cwd. Qed.

Lemma normalizePaths_same_cwd paths workDir :
  normalizePaths h1 paths workDir = normalizePaths h2 paths workDir.
Proof.
  unfold normalizePaths. f_equal. apply list_fmap_ext.
  intros _ p _. by rewrite resolve_same_cwd.
Qed.

Lemma workDirOf_same_cwd options : workDirOf h1 options = workDirOf h2 options.
Proof. unfold workDirOf. by rewrite same_cwd, resolve_same_cwd. Qed.

Lemma sandboxPlan_same_host options :
  (∀ d, d ∈ SYSTEM_DIRS → existsSync h1 d = existsSync h2 d) →
  sandboxPlan h1 this options = sandboxPlan h2 this options.
Proof.
  intros Hsys.
  assert (∀ l : list jsstring,
            (∀ d, d ∈ l → existsSync h1 d = existsSync h2 d) →
            filter (λ d, existsSync h1 d = true) l
            = filter (λ d, existsSync h2 d = true) l) as Hfilter.
  { intros l Hl. induction l as [|d l IH]; [done|].
    rewrite !filter_cons, (Hl d) by left.
    rewrite IH by (intros d' Hd'; apply Hl; by right). done. }
  unfold sandboxPlan, readOnlySet, readOnlyCandidates, readWriteSet.
  rewrite workDirOf_same_cwd. cbv zeta.
  rewrite !(normalizePaths_same_cwd _ (workDirOf h2 options)).
  by rewrite (Hfilter SYSTEM_DIRS Hsys).
Qed.

End HostFacts.

(** X7: the result depends on the host only through [process.cwd()] and the
    existence of the six system directories: two hosts that agree on these
    give the same wrapped command, whatever else their file systems hold.
    No path of the policy is ever probed. *)
Theorem X7_host_read_only_through_system_dirs h1 h2 this cmd argv options :
  process_cwd h1 = process_cwd h2 →
  (∀ d, d ∈ SYSTEM_DIRS → existsSync h1 d = existsSync h2 d) →
  wrapCommand h1 this cmd argv options = wrapCommand h2 this cmd argv options.
Proof.
  intros Hcwd Hsys.
  assert (wrapWithBwrap h1 this cmd argv options
          = wrapWithBwrap h2 this cmd argv options) as Hw.
  { change (wrapWithBwrap h1 this cmd argv options)
      with {| command := js "bwrap";
              args := args (wrapWithBwrap h1 this cmd argv options) |}.
    change (wrapWithBwrap h2 this cmd argv options)
      with {| command := js "bwrap";
              args := args (wrapWithBwrap h2 this cmd argv options) |}.
    by rewrite !wrapWithBwrap_args, (sandboxPlan_same_host h1 h2). }
  unfold wrapCommand. by rewrite Hw.
Qed.

Lemma X7_host_read_only_through_system_dirs_witness :
  existsSync hostA (js "/proj") = false
  ∧ existsSync hostB (js "/proj") = true
  ∧ wrapCommand hostA exampleWrapper (js "echo") [js "hi"] projOptions
    = wrapCommand hostB exampleWrapper (js "echo") [js "hi"] projOptions.
Proof.
  split_and!; [by vm_compute|by vm_compute|].
  apply X7_host_read_only_through_system_dirs; [reflexivity|].
  intros d. unfold SYSTEM_DIRS. cbn [fmap list_fmap].
  rewrite !elem_of_cons, elem_of_nil.
  intros [->|[->|[->|[->|[->|[->|[]]]]]]]; reflexivity.
Defined.

(** ** The command cannot reach the options *)

(** X8: the options of the vector are fixed by the host, the policy and
    [options] alone and end with the separator: whatever the command and its
    arguments are (option-like strings included), they follow the same
    option part, and the backend reads the same directives. *)
Theorem X8_command_cannot_alter_options h this options :
  ∃ opts,
    ∀ cmd argv,
      args (wrapWithBwrap h this cmd argv options)
      = opts ++ js "--" :: cmd :: argv
      ∧ parseOptions (opts ++ js "--" :: cmd :: argv)
        = Some (directivesOf (wrapWithBwrap h this [] [] options), cmd :: argv).
Proof.
  exists (sandboxPlan h this options ≫= render). intros cmd argv.
  rewrite wrapWithBwrap_args, directivesOf_wrapWithBwrap. split; [done|].
  apply parseOptions_render.
Qed.

(** X9: no configured path is left out: the normalized form of every
    non-blank entry of [allowPaths], [readOnlyPaths], [authPaths],
    [binaryPaths] and [runtimePaths] gets a bind, writable or read-only, and
    never both from the policy. *)
Theorem X9_every_entry_is_bound h this cmd argv options (e : jsstring) :
  e ∈ default [] (allowPaths (config this))
      ++ default [] (readOnlyPaths (config this))
      ++ authPaths (requirements this)
      ++ binaryPaths (requirements this)
      ++ runtimePaths (requirements this) →
  (0 < length (JS.trim e))%nat →
  let workDir := workDirOf h options in
  let x := if Path.isAbsolute e then e else Path.resolve h [workDir; e] in
  let ds := directivesOf (wrapWithBwrap h this cmd argv options) in
  (Bind x x ∈ ds ∨ RoBind x x ∈ ds)
  ∧ (x ∈ readWriteSet h this workDir ↔ x ∉ readOnlySet h this workDir).
Proof.
  intros He Hnb workDir x ds. subst ds. rewrite directivesOf_wrapWithBwrap.
  assert (x ∈ readWriteSet h this workDir
          ∨ x ∈ readOnlyCandidates h this workDir) as Hsrc.
  { assert (∀ l, e ∈ l → x ∈ normalizePaths h l workDir) as Hn.
    { intros l Hl. apply elem_of_normalizePaths. by exists e. }
    rewrite !elem_of_app in He.
    rewrite elem_of_readWriteSet, elem_of_readOnlyCandidates.
    destruct He as [?|[?|[?|[?|?]]]]; auto 10. }
  destruct (decide (x ∈ readWriteSet h this workDir)) as [Hrw|Hrw].
  - split; [left; by apply Bind_in_plan|].
    split; [|done]. intros _ [_ ?]%elem_of_readOnlySet. done.
  - destruct Hsrc as [?|Hro]; [done|].
    assert (x ∈ readOnlySet h this workDir) as Hset
      by by apply elem_of_readOnlySet.
    split; [right; apply RoBind_in_plan; split; [done|by right]|].
    split; [done|]. intros Hn. by destruct Hn.
Qed.

Lemma X9_every_entry_is_bound_witness :
  RoBind (js "/home/u/.creds") (js "/home/u/.creds")
    ∈ directivesOf (wrapWithBwrap hostA exampleWrapper (js "echo") [js "hi"] projOptions).
Proof.
  destruct (X9_every_entry_is_bound hostA exampleWrapper (js "echo") [js "hi"]
              projOptions (js "/home/u/.creds")) as [[Hb|Hr] _].
  - by_compute.
  - vm_compute. lia.
  - exfalso. revert Hb. refine (bool_decide_unpack (_ ∉ _) _). vm_compute. exact I.
  - exact Hr.
Defined.

(** * The create-prd command *)

(** ** Induction along the parser loop, which advances by one or two *)

Lemma list_ind_two_steps {A} (P : list A → Prop) :
  P [] →
  (∀ a, P [a]) →
  (∀ a b l, P l → P (b :: l) → P (a :: b :: l)) →
  ∀ l, P l.
Proof.
  intros Hnil Hone Hstep l.
  assert (P l ∧ ∀ a, P (a :: l)) as [H _]; [|exact H].
  induction l as [|b l [IH1 IH2]]; [by split|].
  split; [apply IH2|]. intros a. apply Hstep; [exact IH1|apply IH2].
Qed.

Section ParserFacts.
Import CreatePrd.
Context {number : Type} (toNumber : bool → N → number).
Implicit Types (rest args l : list jsstring) (result r : @CreatePrdArgs number).

Lemma isFlag_true arg long short :
  isFlag arg long short = true → arg = js long ∨ arg = js short.
Proof. apply bool_decide_eq_true. Qed.

Lemma isFlag_elem_of arg long short l :
  isFlag arg long short = true → arg ∈ l → js long ∈ l ∨ js short ∈ l.
Proof. intros [->| ->]%isFlag_true ?; [by left|by right]. Qed.

(** The loop exits only at a help flag. *)
Lemma parseFrom_exit rest result :
  parseFrom toNumber rest result = HelpAndExit →
  js "--help" ∈ rest ∨ js "-h" ∈ rest.
Proof.
  revert result. induction rest as [|a|a b l IH1 IH2] using list_ind_two_steps;
    intros result; cbn [parseFrom].
  - discriminate.
  - flag_cases a; try discriminate.
    intros _. eapply isFlag_elem_of; [eassumption|by left].
  - assert (∀ res, parseFrom toNumber l res = HelpAndExit →
                   js "--help" ∈ a :: b :: l ∨ js "-h" ∈ a :: b :: l) as H1.
    { intros res [?|?]%IH1; [left|right]; by do 2 right. }
    assert (∀ res, parseFrom toNumber (b :: l) res = HelpAndExit →
                   js "--help" ∈ a :: b :: l ∨ js "-h" ∈ a :: b :: l) as H2.
    { intros res [?|?]%IH2; [left|right]; by right. }
    flag_cases a; try apply H1; try apply H2.
    intros _. eapply isFlag_elem_of; [eassumption|by left].
Qed.

(** A property is assigned only at its own flag. *)
Lemma parseFrom_frame_cwd : ∀ rest result r,
  parseFrom toNumber rest result = Returned r →
  js "--cwd" ∉ rest → js "-C" ∉ rest → cwd r = cwd result.
Proof. frame_proof (@list_ind_two_steps jsstring). Qed.

Lemma parseFrom_frame_output : ∀ rest result r,
  parseFrom toNumber rest result = Returned r →
  js "--output" ∉ rest → js "-o" ∉ rest → output r = output result.
Proof. frame_proof (@list_ind_two_steps jsstring). Qed.

Lemma parseFrom_frame_stories : ∀ rest result r,
  parseFrom toNumber rest result = Returned r →
  js "--stories" ∉ rest → js "-n" ∉ rest → stories r = stories result.
Proof. frame_proof (@list_ind_two_steps jsstring). Qed.

Lemma parseFrom_frame_force : ∀ rest result r,
  parseFrom toNumber rest result = Returned r →
  js "--force" ∉ rest → js "-f" ∉ rest → force r = force result.
Proof. frame_proof (@list_ind_two_steps jsstring). Qed.

Lemma parseFrom_frame_chat : ∀ rest result r,
  parseFrom toNumber rest result = Returned r →
  js "--chat" ∉ rest → js "--ai" ∉ rest → chat r = chat result.
Proof. frame_proof (@list_ind_two_steps jsstring). Qed.

Lemma parseFrom_frame_agent : ∀ rest result r,
  parseFrom toNumber rest result = Returned r →
  js "--agent" ∉ rest → js "-a" ∉ rest → agent r = agent result.
Proof. frame_proof (@list_ind_two_steps jsstring). Qed.

Lemma parseFrom_frame_timeout : ∀ rest result r,
  parseFrom toNumber rest result = Returned r →
  js "--timeout" ∉ rest → js "-t" ∉ rest → timeout r = timeout result.
Proof. frame_proof (@list_ind_two_steps jsstring). Qed.

(** The two boolean properties are only ever assigned [true]. *)
Lemma parseFrom_force_true rest result r :
  parseFrom toNumber rest result = Returned r →
  force r = Some true ∨ force r = force result.
Proof.
  revert result.
  induction rest as [|a|a b l IH1 IH2] using list_ind_two_steps;
    intros result; cbn [parseFrom].
  - intros [= <-]. by right.
  - flag_cases a; cbn [parseFrom]; intros Hp; try discriminate Hp;
      injection Hp as <-;
      first [ by right | by left
            | unfold set_stories_if_number, set_timeout_if_number;
              destruct (parseInt10 _ _); by right ].
  - flag_cases a; intros Hp; try discriminate Hp;
      first [apply IH1 in Hp | apply IH2 in Hp];
      (destruct Hp as [Hp|Hp]; [by left|]); rewrite Hp;
      first [ by right | by left
            | unfold set_stories_if_number, set_timeout_if_number;
              destruct (parseInt10 _ _); by right ].
Qed.

Lemma parseFrom_chat_true rest result r :
  parseFrom toNumber rest result = Returned r →
  chat r = Some true ∨ chat r = chat result.
Proof.
  revert result.
  induction rest as [|a|a b l IH1 IH2] using list_ind_two_steps;
    intros result; cbn [parseFrom].
  - intros [= <-]. by right.
  - flag_cases a; cbn [parseFrom]; intros Hp; try discriminate Hp;
      injection Hp as <-;
      first [ by right | by left
            | unfold set_stories_if_number, set_timeout_if_number;
              destruct (parseInt10 _ _); by right ].
  - flag_cases a; intros Hp; try discriminate Hp;
      first [apply IH1 in Hp | apply IH2 in Hp];
      (destruct Hp as [Hp|Hp]; [by left|]); rewrite Hp;
      first [ by right | by left
            | unfold set_stories_if_number, set_timeout_if_number;
              destruct (parseInt10 _ _); by right ].
Qed.

(** Parsing a list that does not end on a flag waiting for its value, then
    more arguments, is parsing the rest from the result of the first. *)
Lemma parseFrom_app l1 l2 result :
  endsOnFlagWithoutValue l1 = false →
  parseFrom toNumber (l1 ++ l2) result
  = match parseFrom toNumber l1 result with
    | Returned r' => parseFrom toNumber l2 r'
    | HelpAndExit => HelpAndExit
    end.
Proof.
  revert result.
  induction l1 as [|a|a b l IH1 IH2] using list_ind_two_steps; intros result.
  - done.
  - cbn [endsOnFlagWithoutValue app parseFrom]. unfold takesValue.
    flag_cases a; cbn [orb parseFrom]; try discriminate; done.
  - set (bl := b :: l) in *.
    cbn [endsOnFlagWithoutValue app parseFrom]. unfold takesValue.
    flag_cases a; cbn [orb]; intros H; try discriminate H; subst bl;
      first
        [ by apply IH1 | by apply IH2 | done
        | apply IH2;
          match goal with
          | Hf : isFlag a _ _ = true |- _ =>
              apply isFlag_true in Hf as [-> | ->]; exact H
          end ].
Qed.

End ParserFacts.

(** X10: [parseCreatePrdArgs] ends the process (help printed, exit code 0)
    only when [--help] or [-h] is among the arguments; without them it
    returns a result. *)
Theorem X10_parse_returns_without_help {number : Type}
    (toNumber : bool → N → number) (args : list jsstring) :
  js "--help" ∉ args → js "-h" ∉ args →
  ∃ result, CreatePrd.parseCreatePrdArgs toNumber args = CreatePrd.Returned result.
Proof.
  intros Hlong Hshort. unfold CreatePrd.parseCreatePrdArgs.
  destruct (CreatePrd.parseFrom toNumber args CreatePrd.emptyArgs) as [r|] eqn:Hp.
  - by exists r.
  - apply parseFrom_exit in Hp as [?|?]; done.
Qed.

Lemma X10_parse_returns_without_help_witness :
  ∃ result,
    CreatePrd.parseCreatePrdArgs exactNumber sampleArgs = CreatePrd.Returned result.
Proof.
  apply X10_parse_returns_without_help.
  - refine (bool_decide_unpack (_ ∉ _) _). vm_compute. exact I.
  - refine (bool_decide_unpack (_ ∉ _) _). vm_compute. exact I.
Defined.

(** X11: a property of the result is absent unless one of the two spellings
    of its flag is among the arguments, and [force] and [chat] are never
    [false]: they are absent or [true]. *)
Theorem X11_properties_only_from_their_flags {number : Type}
    (toNumber : bool → N → number) (args : list jsstring)
    (r : @CreatePrd.CreatePrdArgs number) :
  CreatePrd.parseCreatePrdArgs toNumber args = CreatePrd.Returned r →
  (js "--cwd" ∉ args → js "-C" ∉ args → CreatePrd.cwd r = None)
  ∧ (js "--output" ∉ args → js "-o" ∉ args → CreatePrd.output r = None)
  ∧ (js "--stories" ∉ args → js "-n" ∉ args → CreatePrd.stories r = None)
  ∧ (js "--force" ∉ args → js "-f" ∉ args → CreatePrd.force r = None)
  ∧ (js "--chat" ∉ args → js "--ai" ∉ args → CreatePrd.chat r = None)
  ∧ (js "--agent" ∉ args → js "-a" ∉ args → CreatePrd.agent r = None)
  ∧ (js "--timeout" ∉ args → js "-t" ∉ args → CreatePrd.timeout r = None)
  ∧ (CreatePrd.force r = None ∨ CreatePrd.force r = Some true)
  ∧ (CreatePrd.chat r = None ∨ CreatePrd.chat r = Some true).
Proof.
  unfold CreatePrd.parseCreatePrdArgs. intros Hp. split_and!.
  - apply (parseFrom_frame_cwd toNumber _ _ _ Hp).
  - apply (parseFrom_frame_output toNumber _ _ _ Hp).
  - apply (parseFrom_frame_stories toNumber _ _ _ Hp).
  - apply (parseFrom_frame_force toNumber _ _ _ Hp).
  - apply (parseFrom_frame_chat toNumber _ _ _ Hp).
  - apply (parseFrom_frame_agent toNumber _ _ _ Hp).
  - apply (parseFrom_frame_timeout toNumber _ _ _ Hp).
  - destruct (parseFrom_force_true toNumber _ _ _ Hp); [by right|by left].
  - destruct (parseFrom_chat_true toNumber _ _ _ Hp); [by right|by left].
Qed.

Lemma X11_properties_only_from_their_flags_witness :
  ∃ r, CreatePrd.parseCreatePrdArgs exactNumber sampleArgs = CreatePrd.Returned r
       ∧ CreatePrd.cwd r = None
       ∧ CreatePrd.agent r = None
       ∧ CreatePrd.force r = Some true
       ∧ CreatePrd.output r = Some (js "docs").
Proof.
  eexists. split; [by vm_compute|].
  match goal with
  | |- CreatePrd.cwd ?r = None ∧ _ =>
      pose proof (X11_properties_only_from_their_flags exactNumber sampleArgs r
                    eq_refl) as (Hcwd & _ & _ & _ & _ & Hagent & _)
  end.
  split_and!.
  - apply Hcwd; refine (bool_decide_unpack (_ ∉ _) _); vm_compute; exact I.
  - apply Hagent; refine (bool_decide_unpack (_ ∉ _) _); vm_compute; exact I.
  - reflexivity.
  - reflexivity.
Defined.

(** X12: when a list of arguments does not end on a flag that waits for its
    value, parsing it followed by more arguments is parsing those from the
    result of the first list; a help flag met in the first list ends the
    call whatever follows. *)
Theorem X12_parse_composes {number : Type} (toNumber : bool → N → number)
    (l1 l2 : list jsstring) :
  CreatePrd.endsOnFlagWithoutValue l1 = false →
  CreatePrd.parseCreatePrdArgs toNumber (l1 ++ l2)
  = match CreatePrd.parseCreatePrdArgs toNumber l1 with
    | CreatePrd.Returned r => CreatePrd.parseFrom toNumber l2 r
    | CreatePrd.HelpAndExit => CreatePrd.HelpAndExit
    end.
Proof.
  intros Hend. unfold CreatePrd.parseCreatePrdArgs.
  by apply parseFrom_app.
Qed.

Lemma X12_parse_composes_witness :
  CreatePrd.parseCreatePrdArgs exactNumber (cwdThenStories ++ sampleArgs)
  = match CreatePrd.parseCreatePrdArgs exactNumber cwdThenStories with
    | CreatePrd.Returned r => CreatePrd.parseFrom exactNumber sampleArgs r
    | CreatePrd.HelpAndExit => CreatePrd.HelpAndExit
    end.
Proof. apply X12_parse_composes. reflexivity. Defined.

(** X13: after arguments that parse to [r] and do not end on a flag waiting
    for its value: a further [--cwd v] makes [cwd] be [v], whatever [v] is (a
    flag included) and whatever [cwd] was; a final [--cwd] without a value
    makes [cwd] absent again; a further [--stories w] assigns [stories] when
    [w] starts with a number and leaves it as it was otherwise, as does a
    final [--stories]; and a further [--help] ends the call whatever comes
    after it. *)
Theorem X13_later_flags {number : Type} (toNumber : bool → N → number)
    (l : list jsstring) (r : @CreatePrd.CreatePrdArgs number)
    (v w : jsstring) (rest : list jsstring) :
  CreatePrd.endsOnFlagWithoutValue l = false →
  CreatePrd.parseCreatePrdArgs toNumber l = CreatePrd.Returned r →
  CreatePrd.parseCreatePrdArgs toNumber (l ++ [js "--cwd"; v])
  = CreatePrd.Returned (CreatePrd.set_cwd (Some v) r)
  ∧ CreatePrd.parseCreatePrdArgs toNumber (l ++ [js "--cwd"])
    = CreatePrd.Returned (CreatePrd.set_cwd None r)
  ∧ CreatePrd.parseCreatePrdArgs toNumber (l ++ [js "--stories"; w])
    = CreatePrd.Returned
        match CreatePrd.parseInt10 toNumber w with
        | Some count => CreatePrd.set_stories (Some count) r
        | None => r
        end
  ∧ CreatePrd.parseCreatePrdArgs toNumber (l ++ [js "--stories"])
    = CreatePrd.Returned r
  ∧ CreatePrd.parseCreatePrdArgs toNumber (l ++ js "--help" :: rest)
    = CreatePrd.HelpAndExit.
Proof.
  intros Hend Hp. unfold CreatePrd.parseCreatePrdArgs in *.
  rewrite !(parseFrom_app toNumber l) by done. rewrite Hp.
  split_and!; reflexivity.
Qed.

Lemma X13_later_flags_witness :
  CreatePrd.parseCreatePrdArgs exactNumber
    (js <$> ["--cwd"; "/a"; "-n"; "5"; "--cwd"; "--help"]%string)
  = CreatePrd.Returned
      {| CreatePrd.cwd := Some (js "--help"); CreatePrd.output := None;
         CreatePrd.stories := Some 5%Z; CreatePrd.force := None;
         CreatePrd.chat := None; CreatePrd.agent := None;
         CreatePrd.timeout := None |}
  ∧ CreatePrd.parseCreatePrdArgs exactNumber
      (js <$> ["--cwd"; "/a"; "-n"; "5"; "--cwd"]%string)
    = CreatePrd.Returned
        {| CreatePrd.cwd := None; CreatePrd.output := None;
           CreatePrd.stories := Some 5%Z; CreatePrd.force := None;
           CreatePrd.chat := None; CreatePrd.agent := None;
           CreatePrd.timeout := None |}
  ∧ CreatePrd.parseCreatePrdArgs exactNumber
      (js <$> ["--cwd"; "/a"; "-n"; "5"; "--stories"; "many"]%string)
    = CreatePrd.Returned
        {| CreatePrd.cwd := Some (js "/a"); CreatePrd.output := None;
           CreatePrd.stories := Some 5%Z; CreatePrd.force := None;
           CreatePrd.chat := None; CreatePrd.agent := None;
           CreatePrd.timeout := None |}.
Proof.
  pose proof (X13_later_flags exactNumber cwdThenStories
                {| CreatePrd.cwd := Some (js "/a"); CreatePrd.output := None;
                   CreatePrd.stories := Some 5%Z; CreatePrd.force := None;
                   CreatePrd.chat := None; CreatePrd.agent := None;
                   CreatePrd.timeout := None |}
                (js "--help") (js "many") [] eq_refl eq_refl)
    as (H1 & H2 & H3 & _).
  split_and!; [exact H1|exact H2|exact H3].
Defined.

(** ** The tracker menu *)

Section TrackerFacts.
Import CreatePrd.
Context (toUpperCase : jsstring → jsstring) (h : Host) (cwd : jsstring).

Lemma getAvailableTrackers_entries :
  getAvailableTrackers h cwd
  = [jsonTracker;
     beadsTracker (existsSync h (PosixPath.join [cwd; js ".beads"]));
     skipTracker].
Proof. reflexivity. Qed.

Lemma availableTrackers_entries :
  filter (λ t, available t = true) (getAvailableTrackers h cwd)
  = if existsSync h (PosixPath.join [cwd; js ".beads"])
    then [jsonTracker; beadsTracker true; skipTracker]
    else [jsonTracker; skipTracker].
Proof.
  rewrite getAvailableTrackers_entries.
  destruct (existsSync h _).
  - rewrite filter_cons, decide_True by done.
    rewrite filter_cons, decide_True by done.
    rewrite filter_cons, decide_True by done. done.
  - rewrite filter_cons, decide_True by done.
    rewrite filter_cons, decide_False by done.
    rewrite filter_cons, decide_True by done. done.
Qed.

End TrackerFacts.

(** X14: the tracker the prompt resolves with is decided by the trimmed,
    upper-cased answer alone: [A] gives the JSON tracker; [B] gives Beads
    only when [<cwd>/.beads] exists, although the query always offers
    [(A/B/C)]; every other answer, [C] included, gives [null].  The Beads
    line is logged exactly when [.beads] exists. *)
Theorem X14_tracker_selection (toUpperCase : jsstring → jsstring) (h : Host)
    (cwd answer : jsstring) :
  let p := CreatePrd.promptTrackerSelection toUpperCase h cwd answer in
  let hasBeads := existsSync h (PosixPath.join [cwd; js ".beads"]) in
  let normalized := toUpperCase (JS.trim answer) in
  CreatePrd.resolved p
  = (if bool_decide (normalized = js "A") then Some jsonTracker
     else if bool_decide (normalized = js "B") && hasBeads
          then Some (beadsTracker true)
          else None)
  ∧ CreatePrd.logged p
    = [ []; js "Would you like to create tasks for a tracker?"; [];
        js "  A. JSON (prd.json) - Simple JSON format, no external dependencies" ]
      ++ (if hasBeads
          then [js "  B. Beads - Git-backed issue tracker with dependencies"]
          else [])
      ++ [ js "  C. Skip - I'll create tasks manually"; [] ]
  ∧ CreatePrd.query p = js "Select option (A/B/C): ".
Proof.
  intros p hasBeads normalized. subst p.
  unfold CreatePrd.promptTrackerSelection.
  cbn [CreatePrd.resolved CreatePrd.logged CreatePrd.query].
  rewrite availableTrackers_entries. fold hasBeads normalized.
  split_and!; [|by destruct hasBeads; vm_compute|reflexivity].
  destruct hasBeads; cbn [List.find CreatePrd.key jsonTracker beadsTracker skipTracker].
  - destruct (decide (normalized = js "A")) as [->|HA].
    { by vm_compute. }
    rewrite (bool_decide_eq_false_2 (normalized = js "A")) by done.
    rewrite (bool_decide_eq_false_2 (js "A" = normalized)) by done.
    destruct (decide (normalized = js "B")) as [->|HB].
    { by vm_compute. }
    rewrite (bool_decide_eq_false_2 (normalized = js "B")) by done.
    rewrite (bool_decide_eq_false_2 (js "B" = normalized)) by done.
    cbn [andb]. destruct (bool_decide (js "C" = normalized)); by vm_compute.
  - destruct (decide (normalized = js "A")) as [->|HA].
    { by vm_compute. }
    rewrite (bool_decide_eq_false_2 (normalized = js "A")) by done.
    rewrite (bool_decide_eq_false_2 (js "A" = normalized)) by done.
    rewrite andb_false_r.
    destruct (bool_decide (js "C" = normalized)); by vm_compute.
Qed.

Lemma X14_tracker_selection_witness :
  CreatePrd.resolved
    (CreatePrd.promptTrackerSelection asciiUpperCase beadsHost (js "/proj") (js " b "))
  = Some (beadsTracker true)
  ∧ CreatePrd.resolved
      (CreatePrd.promptTrackerSelection asciiUpperCase hostA (js "/proj") (js " b "))
    = None.
Proof.
  split.
  - apply (X14_tracker_selection asciiUpperCase beadsHost (js "/proj") (js " b ")).
  - apply (X14_tracker_selection asciiUpperCase hostA (js "/proj") (js " b ")).
Defined.
